(** * Deckyfin front-end: settings draft store and operation dispatch

    A shallow embedding of the [Content] component of the two front-end
    modules of the repository ([src/index.tsx] and its near-duplicate, the
    install/remove variant), with the properties of the settings-draft store,
    the library snapshot cache and the operation dispatcher.

    The component is single-threaded JavaScript: every [async] function is
    cut at its [await]s into a synchronous prefix and continuations, and an
    execution is an interleaving of those segments.  React state cells are
    fields of one record; a setter call is a record update, applied in call
    order (which is the order in which React replays queued updates) and
    recorded, with the effects, in a journal. *)

From stdpp Require Import gmap strings list fin_maps pretty.

#[local] Set Warnings "-register-all".

Open Scope string_scope.
Open Scope list_scope.

(** ** JavaScript values and the object store *)

(** Configuration objects live in a store of objects addressed by location,
    so that copying ([{...x}]) and sharing of references are visible. *)
Abbreviation loc := nat.

Inductive value :=
  | VNull
  | VBool (b : bool)
  | VStr (s : string)
  | VRef (l : loc).

#[global] Instance value_eq_dec : EqDecision value.
Proof. solve_decision. Defined.

Abbreviation obj := (gmap string value).
Abbreviation heap := (list obj).

(** Truthiness, as tested by [if (!prev)] and [!settingsDraft]. *)
Definition truthy (v : value) : bool :=
  match v with
  | VNull => false
  | VBool b => b
  | VStr s => negb (String.eqb s "")
  | VRef _ => true
  end.

(** Leaves of a configuration are scalars. *)
Definition is_leaf (v : value) : bool :=
  match v with
  | VBool _ | VStr _ => true
  | _ => false
  end.

Definition obj_at (h : heap) (l : loc) : obj := default ∅ (h !! l).

(** [cursor[key] = v] on the object stored at [cursor]: the key becomes an
    own property.  (For the key ["__proto__"] on an object that does not own
    it, JavaScript runs the inherited setter instead; see [plain_path].) *)
Definition set_prop (h : heap) (cursor : loc) (key : string) (v : value) : heap :=
  <[cursor := <[key := v]> (obj_at h cursor)]> h.

(** Own enumerable properties of a string: its characters under their
    indices.  The characters of a string stand for its UTF-16 code units. *)
Fixpoint string_props (i : nat) (s : string) : obj :=
  match s with
  | EmptyString => ∅
  | String c s' => <[pretty i := VStr (String c EmptyString)]> (string_props (S i) s')
  end.

(** [{ ...(x ?? {}) }]: the properties copied into the fresh object, where
    [x] is the result of a property read ([None] is [undefined]). *)
Definition spread (h : heap) (x : option value) : obj :=
  match x with
  | None | Some VNull => ∅
  | Some (VBool _) => ∅
  | Some (VStr s) => string_props 0 s
  | Some (VRef l) => obj_at h l
  end.

(** The loop of [mutateDraft]: for each segment but the last, replace the
    child by a fresh copy of itself and move the cursor there.  Segments are
    field names of the configuration; members inherited from
    [Object.prototype] are not modelled. *)
Fixpoint descend (h : heap) (cursor : loc) (segments : list string) : heap * loc :=
  match segments with
  | [] => (h, cursor)
  | segment :: rest =>
      let child := length h in
      let h1 := h ++ [spread h (obj_at h cursor !! segment)] in
      descend (set_prop h1 cursor segment (VRef child)) child rest
  end.

(** [path[path.length - 1]] used as a property key; reading past the ends of
    an array gives [undefined], whose key is the string "undefined". *)
Definition last_key (path : list string) : string := default "undefined" (last path).

(** The updater passed to [setSettingsDraft] by [mutateDraft]. *)
Definition mutateDraft_updater (path : list string) (v : value)
    (h : heap) (prev : value) : heap * value :=
  if negb (truthy prev) then (h, prev)
  else
    let clone := length h in
    let h1 := h ++ [spread h (Some prev)] in
    let '(h2, cursor) := descend h1 clone (take (length path - 1) path) in
    (set_prop h2 cursor (last_key path) v, VRef clone).

(** Reading a value through a path of field names (used to state what a
    mutation changes and what it leaves alone). *)
Fixpoint get_path (h : heap) (v : value) (path : list string) : option value :=
  match path with
  | [] => Some v
  | k :: rest =>
      match v with
      | VRef l =>
          match h !! l with
          | Some o =>
              match o !! k with
              | Some x => get_path h x rest
              | None => None
              end
          | None => None
          end
      | _ => None
      end
  end.

(** Two paths part ways at some field name (neither is a prefix of the
    other). *)
Fixpoint diverges (q p : list string) : bool :=
  match q, p with
  | s :: q', t :: p' => if String.eqb s t then diverges q' p' else true
  | _, _ => false
  end.

(** ** Data exchanged with the backend *)

(** The type [GameEntry]; [steam_appid] is a non-negative integer.  The
    fields [executable], [categories] and [launch_options] exist in the
    install/remove front end only. *)
Record GameEntry := {
  name : string;
  game_path : string;
  defined_path : option string;
  steam_appid : N;
  proton_version : string;
  proton_dependencies : list string;
  proton_sync_paths : list string;
  remote_path : option string;
  executable : option string;
  categories : option (list string);
  launch_options : option string;
  installed : bool;
  prefix_ready : bool;
  prefix_path : string;
  backup_path : string;
  last_backup : option string;
  remote_available : bool
}.

Record GamesResponse := {
  resp_games : list GameEntry;
  resp_source : string;
  resp_savesPath : option string;
  resp_refreshedAt : string
}.

Record GamesMeta := { source : string; refreshedAt : string }.

(** The type [OperationResult].  [message] is declared mandatory but read
    with [??], so it is optional here; [steps] exists in the install/remove
    front end only. *)
Record OperationResult := {
  ok : bool;
  message : option string;
  timestamp : option string;
  failures : option (list string);
  result_prefix_path : option string;
  steps : option (list string)
}.

(** A configuration as it travels over the wire. *)
Inductive json :=
  | JNull
  | JBool (b : bool)
  | JStr (s : string)
  | JObj (fields : list (string * json)).

(** Receiving a configuration builds fresh objects for it. *)
Fixpoint alloc_json (h : heap) (j : json) : heap * value :=
  match j with
  | JNull => (h, VNull)
  | JBool b => (h, VBool b)
  | JStr s => (h, VStr s)
  | JObj fields =>
      let fix alloc_fields (h : heap) (acc : obj) (fs : list (string * json))
          : heap * obj :=
        match fs with
        | [] => (h, acc)
        | (k, j') :: fs' =>
            let '(h1, v) := alloc_json h j' in
            alloc_fields h1 (<[k := v]> acc) fs'
        end in
      let '(h', o) := alloc_fields h ∅ fields in
      (h' ++ [o], VRef (length h'))
  end.

(** The remote procedures of [api]. *)
Inductive rpc :=
  | get_settings
  | save_settings (draft : value)
  | load_games
  | download_game (game : string)
  | setup_proton_prefix (appid : N)
  | sync_game_saves (game : string)
  | sync_all_saves
  | install_game (game : string)
  | remove_game (game : string).

(** The argument of [toaster.toast]; an omitted [critical] is [false]. *)
Record Toast := { title : string; body : string; critical : bool }.

(** What the component does to the outside, in order: notifications and
    remote calls ([console.error] is left out). *)
Inductive effect :=
  | Notify (t : Toast)
  | Call (r : rpc).

(** A value thrown by a remote call, reduced to what [error?.message] reads
    from it. *)
Definition thrown := option string.

Inductive outcome :=
  | Resolved (r : OperationResult)
  | Rejected (e : thrown).

(** The two front ends. *)
Inductive frontend := IndexTsx | Part000.

(** The operations the per-game and whole-library handlers dispatch:
    download and setup in [index.tsx], install and remove in the other
    front end, sync and sync-all in both. *)
Inductive operation :=
  | Download (game : string)
  | Setup (appid : N) (game : string)
  | Sync (game : string)
  | SyncAll
  | Install (game : string)
  | Remove (game : string).

Definition has_operation (fe : frontend) (o : operation) : bool :=
  match fe, o with
  | IndexTsx, (Download _ | Setup _ _) => true
  | Part000, (Install _ | Remove _) => true
  | _, (Sync _ | SyncAll) => true
  | _, _ => false
  end.

(** Suspended tasks: an [async] function waiting at an [await]. *)
Inductive task :=
  | LoadingSettings
  | LoadingGames
  | Saving
  | Awaiting (o : operation)
  | Toasted (o : operation) (out : outcome).

(** ** The component state *)

(** A call of a state setter, with the value the cell takes. *)
Inductive write :=
  | W_settings (v : value)
  | W_settingsDraft (v : value)
  | W_settingsDirty (b : bool)
  | W_savingSettings (b : bool)
  | W_games (l : list GameEntry)
  | W_gamesMeta (m : option GamesMeta)
  | W_gamesLoading (b : bool)
  | W_globalError (e : option string)
  | W_busyMap (m : gmap string bool).

(** What the component does, in program order: calls of the state setters
    (React replays queued updates in this order) and effects. *)
Inductive entry :=
  | Wrote (c : write)
  | Did (e : effect).

(** The nine [useState] cells of [Content], the object store, the effects
    performed so far, the suspended tasks, and the journal of setter calls
    and effects in the order in which they were made. *)
Record World := {
  objects : heap;
  settings : value;
  settingsDraft : value;
  settingsDirty : bool;
  savingSettings : bool;
  games : list GameEntry;
  gamesMeta : option GamesMeta;
  gamesLoading : bool;
  globalError : option string;
  busyMap : gmap string bool;
  effects : list effect;
  pending : list task;
  journal : list entry
}.

(** The state at mount: the initial values given to [useState]. *)
Definition initial : World :=
  {| objects := []; settings := VNull; settingsDraft := VNull;
     settingsDirty := false; savingSettings := false; games := [];
     gamesMeta := None; gamesLoading := false; globalError := None;
     busyMap := ∅; effects := []; pending := []; journal := [] |}.

(** The setters of the React cells record their call in the journal; the
    store, the effects and the suspended tasks are not React cells. *)
Definition set_objects (x : heap) (w : World) : World :=
  {| objects := x; settings := settings w; settingsDraft := settingsDraft w;
     settingsDirty := settingsDirty w; savingSettings := savingSettings w;
     games := games w; gamesMeta := gamesMeta w; gamesLoading := gamesLoading w;
     globalError := globalError w; busyMap := busyMap w; effects := effects w;
     pending := pending w; journal := journal w |}.

Definition setSettings (x : value) (w : World) : World :=
  {| objects := objects w; settings := x; settingsDraft := settingsDraft w;
     settingsDirty := settingsDirty w; savingSettings := savingSettings w;
     games := games w; gamesMeta := gamesMeta w; gamesLoading := gamesLoading w;
     globalError := globalError w; busyMap := busyMap w; effects := effects w;
     pending := pending w; journal := journal w ++ [Wrote (W_settings x)] |}.

Definition setSettingsDraft (x : value) (w : World) : World :=
  {| objects := objects w; settings := settings w; settingsDraft := x;
     settingsDirty := settingsDirty w; savingSettings := savingSettings w;
     games := games w; gamesMeta := gamesMeta w; gamesLoading := gamesLoading w;
     globalError := globalError w; busyMap := busyMap w; effects := effects w;
     pending := pending w; journal := journal w ++ [Wrote (W_settingsDraft x)] |}.

Definition setSettingsDirty (x : bool) (w : World) : World :=
  {| objects := objects w; settings := settings w; settingsDraft := settingsDraft w;
     settingsDirty := x; savingSettings := savingSettings w; games := games w;
     gamesMeta := gamesMeta w; gamesLoading := gamesLoading w;
     globalError := globalError w; busyMap := busyMap w; effects := effects w;
     pending := pending w; journal := journal w ++ [Wrote (W_settingsDirty x)] |}.

Definition setSavingSettings (x : bool) (w : World) : World :=
  {| objects := objects w; settings := settings w; settingsDraft := settingsDraft w;
     settingsDirty := settingsDirty w; savingSettings := x; games := games w;
     gamesMeta := gamesMeta w; gamesLoading := gamesLoading w;
     globalError := globalError w; busyMap := busyMap w; effects := effects w;
     pending := pending w; journal := journal w ++ [Wrote (W_savingSettings x)] |}.

Definition setGames (x : list GameEntry) (w : World) : World :=
  {| objects := objects w; settings := settings w; settingsDraft := settingsDraft w;
     settingsDirty := settingsDirty w; savingSettings := savingSettings w; games := x;
     gamesMeta := gamesMeta w; gamesLoading := gamesLoading w;
     globalError := globalError w; busyMap := busyMap w; effects := effects w;
     pending := pending w; journal := journal w ++ [Wrote (W_games x)] |}.

Definition setGamesMeta (x : option GamesMeta) (w : World) : World :=
  {| objects := objects w; settings := settings w; settingsDraft := settingsDraft w;
     settingsDirty := settingsDirty w; savingSettings := savingSettings w;
     games := games w; gamesMeta := x; gamesLoading := gamesLoading w;
     globalError := globalError w; busyMap := busyMap w; effects := effects w;
     pending := pending w; journal := journal w ++ [Wrote (W_gamesMeta x)] |}.

Definition setGamesLoading (x : bool) (w : World) : World :=
  {| objects := objects w; settings := settings w; settingsDraft := settingsDraft w;
     settingsDirty := settingsDirty w; savingSettings := savingSettings w;
     games := games w; gamesMeta := gamesMeta w; gamesLoading := x;
     globalError := globalError w; busyMap := busyMap w; effects := effects w;
     pending := pending w; journal := journal w ++ [Wrote (W_gamesLoading x)] |}.

Definition setGlobalError (x : option string) (w : World) : World :=
  {| objects := objects w; settings := settings w; settingsDraft := settingsDraft w;
     settingsDirty := settingsDirty w; savingSettings := savingSettings w;
     games := games w; gamesMeta := gamesMeta w; gamesLoading := gamesLoading w;
     globalError := x; busyMap := busyMap w; effects := effects w;
     pending := pending w; journal := journal w ++ [Wrote (W_globalError x)] |}.

Definition setBusyMap (x : gmap string bool) (w : World) : World :=
  {| objects := objects w; settings := settings w; settingsDraft := settingsDraft w;
     settingsDirty := settingsDirty w; savingSettings := savingSettings w;
     games := games w; gamesMeta := gamesMeta w; gamesLoading := gamesLoading w;
     globalError := globalError w; busyMap := x; effects := effects w;
     pending := pending w; journal := journal w ++ [Wrote (W_busyMap x)] |}.

Definition set_effects (x : list effect) (w : World) : World :=
  {| objects := objects w; settings := settings w; settingsDraft := settingsDraft w;
     settingsDirty := settingsDirty w; savingSettings := savingSettings w;
     games := games w; gamesMeta := gamesMeta w; gamesLoading := gamesLoading w;
     globalError := globalError w; busyMap := busyMap w; effects := x;
     pending := pending w; journal := journal w |}.

Definition set_pending (x : list task) (w : World) : World :=
  {| objects := objects w; settings := settings w; settingsDraft := settingsDraft w;
     settingsDirty := settingsDirty w; savingSettings := savingSettings w;
     games := games w; gamesMeta := gamesMeta w; gamesLoading := gamesLoading w;
     globalError := globalError w; busyMap := busyMap w; effects := effects w;
     pending := x; journal := journal w |}.

(** An effect is performed: it is appended to the effects and recorded in the
    journal. *)
Definition emit (e : effect) (w : World) : World :=
  {| objects := objects w; settings := settings w; settingsDraft := settingsDraft w;
     settingsDirty := settingsDirty w; savingSettings := savingSettings w;
     games := games w; gamesMeta := gamesMeta w; gamesLoading := gamesLoading w;
     globalError := globalError w; busyMap := busyMap w; effects := effects w ++ [e];
     pending := pending w; journal := journal w ++ [Did e] |}.
Definition spawn (t : task) (w : World) : World := set_pending (pending w ++ [t]) w.
Definition toast (t : Toast) (w : World) : World := emit (Notify t) w.

(** ** The functions of [Content] *)

Definition disableActions (w : World) : bool := gamesLoading w || savingSettings w.

Definition markBusy (key : string) (busy : bool) (w : World) : World :=
  setBusyMap (<[key := busy]> (busyMap w)) w.

(** [mutateDraft]: the draft cell is replaced by the updater's result, then
    the dirty flag is set. *)
Definition mutateDraft (path : list string) (v : value) (w : World) : World :=
  let '(h, draft) := mutateDraft_updater path v (objects w) (settingsDraft w) in
  let w := setSettingsDraft draft (set_objects h w) in
  setSettingsDirty true w.

(** [loadSettings], up to its [await]. *)
Definition loadSettings (w : World) : World :=
  spawn LoadingSettings (emit (Call get_settings) w).

Definition loadSettings_resolved (j : json) (w : World) : World :=
  let '(h, loaded) := alloc_json (objects w) j in
  let w := set_objects h w in
  let w := setSettings loaded w in
  let w := setSettingsDraft loaded w in
  setSettingsDirty false w.

Definition loadSettings_rejected (w : World) : World :=
  setGlobalError (Some "Unable to load plugin settings") w.

(** [loadGames], up to its [await]. *)
Definition loadGames (w : World) : World :=
  let w := setGamesLoading true w in
  let w := setGlobalError None w in
  spawn LoadingGames (emit (Call load_games) w).

Definition loadGames_resolved (payload : GamesResponse) (w : World) : World :=
  let w := setGames (resp_games payload) w in
  let w := setGamesMeta
             (Some {| source := resp_source payload;
                      refreshedAt := resp_refreshedAt payload |}) w in
  setGamesLoading false w.

Definition games_error (fe : frontend) : string :=
  match fe with
  | IndexTsx => "Failed to read games YAML. Check the path and syntax."
  | Part000 =>
      "Failed to read config file. Check remote host, config path, and JSON syntax."
  end.

Definition loadGames_rejected (fe : frontend) (w : World) : World :=
  let w := setGlobalError (Some (games_error fe)) w in
  setGamesLoading false w.

(** [persistSettings], up to its [await].  It reads [settingsDraft] and
    [savingSettings] as rendered; the model reads the cells, that is, the
    handler of the latest render is the one called. *)
Definition persistSettings (w : World) : World :=
  if negb (truthy (settingsDraft w)) || savingSettings w then w
  else
    let w := setSavingSettings true w in
    spawn Saving (emit (Call (save_settings (settingsDraft w))) w).

Definition persistSettings_resolved (j : json) (w : World) : World :=
  let '(h, updated) := alloc_json (objects w) j in
  let w := set_objects h w in
  let w := setSettings updated w in
  let w := setSettingsDraft updated w in
  let w := setSettingsDirty false w in
  let w := toast {| title := "Deckyfin"; body := "Settings saved"; critical := false |} w in
  setSavingSettings false w.

Definition persistSettings_rejected (w : World) : World :=
  let w := toast {| title := "Deckyfin"; body := "Unable to save settings";
                    critical := true |} w in
  setSavingSettings false w.

(** The effect [useEffect(() => { if (settings) loadGames(); }, [settings])]:
    it runs when the [settings] cell has changed. *)
Definition settings_effect (before : value) (w : World) : World :=
  if decide (settings w = before) then w
  else if truthy (settings w) then loadGames w else w.

(** [callWithToaster], up to its [await]: the action is started. *)
Definition callWithToaster (action : rpc) (w : World) : World := emit (Call action) w.

(** [callWithToaster] after its [await]: notify, then hand the outcome on
    (return the result, or rethrow). *)
Definition callWithToaster_settled (success : string) (out : outcome) (w : World)
    : World * outcome :=
  match out with
  | Resolved result =>
      (toast {| title := "Deckyfin"; body := default success (message result);
                critical := false |} w, out)
  | Rejected error =>
      (toast {| title := "Deckyfin"; body := default "Operation failed" error;
                critical := true |} w, out)
  end.

(** Template literals: [`download-${name}`] and the like.  An appid is
    printed with all its digits, as JavaScript does below 1e21. *)
Definition op_key (o : operation) : string :=
  match o with
  | Download game => "download-" +:+ game
  | Setup appid _ => "setup-" +:+ pretty appid
  | Sync game => "sync-" +:+ game
  | SyncAll => "sync-all"
  | Install game => "install-" +:+ game
  | Remove game => "remove-" +:+ game
  end.

Definition op_call (o : operation) : rpc :=
  match o with
  | Download game => download_game game
  | Setup appid _ => setup_proton_prefix appid
  | Sync game => sync_game_saves game
  | SyncAll => sync_all_saves
  | Install game => install_game game
  | Remove game => remove_game game
  end.

Definition op_success (o : operation) : string :=
  match o with
  | Download _ => "Download complete"
  | Setup _ _ => "Prefix prepared"
  | Sync _ => "Saves synced"
  | SyncAll => "Saves synced for all games"
  | Install _ => "Installation complete"
  | Remove _ => "Game removed"
  end.

(** Only [handleInstall] and [handleRemove] look at [result.steps]; this is
    the title of the notification they send for it. *)
Definition op_steps_title (o : operation) : option string :=
  match o with
  | Install _ => Some "Installation steps"
  | Remove _ => Some "Removal steps"
  | _ => None
  end.

(** [steps.join(", ")]. *)
Definition join (sep : string) (l : list string) : string := String.concat sep l.

(** A handler up to the [await] inside [callWithToaster]: mark the key busy
    and start the remote call. *)
Definition handler_begin (o : operation) (w : World) : World :=
  let w := markBusy (op_key o) true w in
  spawn (Awaiting o) (callWithToaster (op_call o) w).

(** The rest of the [try] block of a handler, once [callWithToaster] has
    returned: the steps notification of install and remove. *)
Definition handler_try (o : operation) (out : outcome) (w : World) : World :=
  match out, op_steps_title o with
  | Resolved result, Some steps_title =>
      match steps result with
      | Some (s :: l) =>
          toast {| title := steps_title; body := join ", " (s :: l);
                   critical := false |} w
      | _ => w
      end
  | _, _ => w
  end.

(** The [finally] block of a handler.  After it a thrown value is passed on
    to the caller, the button's click, which ignores it. *)
Definition handler_finally (o : operation) (w : World) : World :=
  let w := markBusy (op_key o) false w in
  loadGames w.

(** A handler from the point where [callWithToaster] has settled. *)
Definition handler_resumed (o : operation) (out : outcome) (w : World) : World :=
  handler_finally o (handler_try o out w).

Definition handleDownload (game : string) : World -> World := handler_begin (Download game).
Definition handleSetup (appid : N) (game : string) : World -> World :=
  handler_begin (Setup appid game).
Definition handleSync (game : string) : World -> World := handler_begin (Sync game).
Definition handleSyncAll : World -> World := handler_begin SyncAll.
Definition handleInstall (game : string) : World -> World := handler_begin (Install game).
Definition handleRemove (game : string) : World -> World := handler_begin (Remove game).

(** ** What is rendered *)

(** [busyMap[key]] in a condition: a missing entry is falsy. *)
Definition is_busy (w : World) (key : string) : bool := default false (busyMap w !! key).

(** The [busy] flag passed to a [GameCard]; the expression is the same in
    both front ends. *)
Definition card_busy (w : World) (g : GameEntry) : bool :=
  is_busy w ("download-" +:+ name g)
  || is_busy w ("setup-" +:+ pretty (steam_appid g))
  || is_busy w ("sync-" +:+ name g)
  || disableActions w.

(** The buttons of a card of the install/remove front end: which are
    rendered, and whether they are disabled. *)
Definition install_button (w : World) (g : GameEntry) : option bool :=
  if installed g then None else Some (card_busy w g || negb (remote_available g)).
Definition remove_button (w : World) (g : GameEntry) : option bool :=
  if installed g then Some (card_busy w g) else None.
Definition backup_button (w : World) (g : GameEntry) : option bool :=
  if installed g then Some (card_busy w g) else None.

(** The Save button: rendered with the configuration panel, when there is a
    draft; [disabled={!settingsDirty || savingSettings}]. *)
Definition save_button (w : World) : option bool :=
  if truthy (settingsDraft w) then Some (negb (settingsDirty w) || savingSettings w)
  else None.

(** A press of the Save button: a button that is absent or disabled does not
    call its [onClick]. *)
Definition press_save (w : World) : World :=
  match save_button w with
  | Some false => persistSettings w
  | _ => w
  end.




(** ** Executions *)

(** What a pending remote call settles with. *)
Inductive response :=
  | Settings_returned (j : json)
  | Games_returned (payload : GamesResponse)
  | Result_returned (r : OperationResult)
  | Threw (e : thrown).

Inductive event :=
  | Mount
  | Edit (path : list string) (v : value)
  | Commit
  | Refresh
  | Click (o : operation)
  | Settle (i : nat) (r : response)
  | Resume (i : nat).

Definition set_task (i : nat) (t : task) (w : World) : World :=
  set_pending (<[i := t]> (pending w)) w.
Definition end_task (i : nat) (w : World) : World :=
  set_pending (delete i (pending w)) w.

(** One segment of execution.  [Settle i r] resumes the task suspended on a
    remote call; [Resume i] resumes a handler suspended on the promise of
    [callWithToaster].  [None]: the event cannot happen in this state. *)
Definition step (fe : frontend) (ev : event) (w : World) : option World :=
  match ev with
  | Mount => Some (loadSettings w)
  | Edit path v => Some (mutateDraft path v w)
  | Commit => Some (persistSettings w)
  | Refresh => Some (loadGames w)
  | Click o => if has_operation fe o then Some (handler_begin o w) else None
  | Settle i r =>
      match pending w !! i, r with
      | Some LoadingSettings, Settings_returned j =>
          Some (settings_effect (settings w) (loadSettings_resolved j (end_task i w)))
      | Some LoadingSettings, Threw _ => Some (loadSettings_rejected (end_task i w))
      | Some LoadingGames, Games_returned payload =>
          Some (loadGames_resolved payload (end_task i w))
      | Some LoadingGames, Threw _ => Some (loadGames_rejected fe (end_task i w))
      | Some Saving, Settings_returned j =>
          Some (settings_effect (settings w) (persistSettings_resolved j (end_task i w)))
      | Some Saving, Threw _ => Some (persistSettings_rejected (end_task i w))
      | Some (Awaiting o), Result_returned result =>
          let '(w', out) := callWithToaster_settled (op_success o) (Resolved result) w in
          Some (set_task i (Toasted o out) w')
      | Some (Awaiting o), Threw e =>
          let '(w', out) := callWithToaster_settled (op_success o) (Rejected e) w in
          Some (set_task i (Toasted o out) w')
      | _, _ => None
      end
  | Resume i =>
      match pending w !! i with
      | Some (Toasted o out) => Some (handler_resumed o out (end_task i w))
      | _ => None
      end
  end.

Fixpoint run (fe : frontend) (evs : list event) (w : World) : option World :=
  match evs with
  | [] => Some w
  | ev :: rest =>
      match step fe ev w with
      | Some w' => run fe rest w'
      | None => None
      end
  end.

Definition reachable (fe : frontend) (w : World) : Prop :=
  exists evs, run fe evs initial = Some w.

(** The key of the operation a suspended task is carrying out, if any. *)
Definition task_key (t : task) : option string :=
  match t with
  | Awaiting o | Toasted o _ => Some (op_key o)
  | _ => None
  end.

Definition in_flight (w : World) (key : string) : Prop :=
  exists t, t ∈ pending w /\ task_key t = Some key.

(** How often [loadGames] has been invoked, and the notifications sent. *)
Definition is_refresh (e : effect) : bool :=
  match e with Call load_games => true | _ => false end.
Definition refreshes (w : World) : nat := length (filter is_refresh (effects w)).

Definition notification (e : effect) : option Toast :=
  match e with Notify t => Some t | _ => None end.
Definition notifications (w : World) : list Toast := omap notification (effects w).

(** The body of the updater once [prev] has been cloned at [cursor]. *)
Definition write_path (h : heap) (cursor : loc) (path : list string) (v : value) : heap :=
  let '(h2, cursor') := descend h cursor (take (length path - 1) path) in
  set_prop h2 cursor' (last_key path) v.

(** Reading a non-empty path starting from the fields of an object. *)
Definition get_in (h : heap) (o : obj) (q : list string) : option value :=
  match q with
  | [] => None
  | s :: q' => match o !! s with Some x => get_path h x q' | None => None end
  end.

(** Every object of [h0] is still there, unchanged, in [h]. *)
Definition preserved (h0 h : heap) : Prop :=
  forall l o, h0 !! l = Some o -> h !! l = Some o.

(** The response that produces a given outcome of a handler's call. *)
Definition response_of (out : outcome) : response :=
  match out with
  | Resolved r => Result_returned r
  | Rejected e => Threw e
  end.

(** A segment that leaves the busy map alone and at most suspends new
    tasks. *)
Definition busy_frame (w w' : World) : Prop :=
  busyMap w' = busyMap w /\ exists ts, pending w' = pending w ++ ts.

(** Every [true] entry of the busy map belongs to a suspended handler. *)
Definition busy_inv (w : World) : Prop :=
  forall k, busyMap w !! k = Some true -> in_flight w k.

(** ** Sample data *)

Definition sample_settings : json :=
  JObj [("localLibraryPath", JStr "/games");
        ("proton", JObj [("compatdataPath", JStr "/compat"); ("defaultVersion", JStr "GE")])].

Definition loaded : World :=
  default initial
    (run IndexTsx [Mount; Settle 0 (Settings_returned sample_settings)] initial).

Definition sample_result : OperationResult :=
  {| ok := true; message := Some "done"; timestamp := None; failures := None;
     result_prefix_path := None; steps := Some ["copied"; "linked"] |}.

Definition sample_game : GameEntry :=
  {| name := "Celeste"; game_path := "/games/Celeste"; defined_path := None;
     steam_appid := 504230; proton_version := "GE"; proton_dependencies := [];
     proton_sync_paths := []; remote_path := None; executable := None;
     categories := None; launch_options := None; installed := false;
     prefix_ready := false; prefix_path := ""; backup_path := "/backup/Celeste";
     last_backup := None; remote_available := true |}.

Definition after_download : World :=
  default initial
    (run IndexTsx [Click (Download "Celeste"); Settle 0 (Result_returned sample_result);
                   Resume 0] initial).

Definition syncing : World := handleSync "Celeste" initial.
Definition installing : World := handleInstall "Celeste" initial.

Definition edited : World := mutateDraft ["localLibraryPath"] (VStr "/mnt/games") loaded.

Definition empty_library : GamesResponse :=
  {| resp_games := []; resp_source := "remote"; resp_savesPath := None;
     resp_refreshedAt := "2024-05-01T10:00:00" |}.

(** ** Field names *)

(** Every field name but ["__proto__"] is written as an own property of a
    plain object.  ["__proto__"] is an accessor inherited from
    [Object.prototype]: assigning to it creates no property, which the
    objects of the store, having no prototype, do not show. *)
Definition plain_key (k : string) : bool := negb (String.eqb k "__proto__").
Definition plain_path (p : list string) : bool := forallb plain_key p.

(** ** Pressing the buttons *)

(** A button calls its [onClick] unless it is absent ([None]) or disabled
    ([Some true]). *)
Definition press (button : option bool) (onClick : World -> World) (w : World) : World :=
  match button with
  | Some false => onClick w
  | _ => w
  end.

(** The buttons of a card of [index.tsx]: Download is rendered for games
    available remotely; all three are disabled by the card's [busy]. *)
Definition download_button (w : World) (g : GameEntry) : option bool :=
  if remote_available g then Some (card_busy w g) else None.
Definition setup_button (w : World) (g : GameEntry) : option bool := Some (card_busy w g).
Definition sync_button (w : World) (g : GameEntry) : option bool := Some (card_busy w g).

Definition press_download (w : World) (g : GameEntry) : World :=
  press (download_button w g) (handleDownload (name g)) w.
Definition press_setup (w : World) (g : GameEntry) : World :=
  press (setup_button w g) (handleSetup (steam_appid g) (name g)) w.
Definition press_sync (w : World) (g : GameEntry) : World :=
  press (sync_button w g) (handleSync (name g)) w.

(** The buttons of a card of the install/remove front end. *)
Definition press_install (w : World) (g : GameEntry) : World :=
  press (install_button w g) (handleInstall (name g)) w.
Definition press_remove (w : World) (g : GameEntry) : World :=
  press (remove_button w g) (handleRemove (name g)) w.
Definition press_backup (w : World) (g : GameEntry) : World :=
  press (backup_button w g) (handleSync (name g)) w.

(** The buttons of the games section header, the same in both front ends:
    [disabled={gamesLoading || disableActions}] and
    [disabled={disableActions}]. *)
Definition refresh_button (w : World) : option bool :=
  Some (gamesLoading w || disableActions w).
Definition sync_all_button (w : World) : option bool := Some (disableActions w).

Definition press_refresh (w : World) : World := press (refresh_button w) loadGames w.
Definition press_sync_all (w : World) : World := press (sync_all_button w) handleSyncAll w.

(** [handleTextChange(path)(event)] and the toggle's [onChange]. *)
Definition handleTextChange (path : list string) (text : string) : World -> World :=
  mutateDraft path (VStr text).
Definition handleToggle (path : list string) (checked : bool) : World -> World :=
  mutateDraft path (VBool checked).

(** ** Counting suspended tasks *)

Definition is_saving (t : task) : bool :=
  match t with Saving => true | _ => false end.
Definition is_loading_games (t : task) : bool :=
  match t with LoadingGames => true | _ => false end.
Definition count_tasks (P : task -> bool) (ts : list task) : nat := length (filter P ts).

(** The calls made so far. *)
Definition call_of (e : effect) : option rpc :=
  match e with Call r => Some r | _ => None end.
Definition calls (w : World) : list rpc := omap call_of (effects w).

(** Two operations that write the same busy key: the same kind on the same
    game (for setup, the same appid), or sync-all and the sync of a game
    named "all". *)
Definition same_key (o1 o2 : operation) : Prop :=
  match o1, o2 with
  | Download a, Download b => a = b
  | Setup n _, Setup m _ => n = m
  | Sync a, Sync b => a = b
  | SyncAll, SyncAll => True
  | Install a, Install b => a = b
  | Remove a, Remove b => a = b
  | Sync a, SyncAll | SyncAll, Sync a => a = "all"
  | _, _ => False
  end.

(** References held in the settings cells point into the store. *)
Definition roots_valid (w : World) : Prop :=
  (forall l, settings w = VRef l -> l < length (objects w))
  /\ (forall l, settingsDraft w = VRef l -> l < length (objects w)).

(** The notification [callWithToaster] sends for an outcome, and the one
    the install and remove handlers add for the steps of a result. *)
Definition outcome_toast (o : operation) (out : outcome) : Toast :=
  match out with
  | Resolved r =>
      {| title := "Deckyfin"; body := default (op_success o) (message r);
         critical := false |}
  | Rejected e =>
      {| title := "Deckyfin"; body := default "Operation failed" e; critical := true |}
  end.

Definition steps_toast (o : operation) (out : outcome) : list Toast :=
  match out, op_steps_title o with
  | Resolved r, Some steps_title =>
      match steps r with
      | Some (s :: l) =>
          [{| title := steps_title; body := join ", " (s :: l); critical := false |}]
      | _ => []
      end
  | _, _ => []
  end.

(** ** More sample data *)

Definition refreshing_twice : World := loadGames (loadGames initial).

Definition saving : World := persistSettings edited.

Definition mounted : World := loadSettings initial.

Definition syncing_two : World := handleSync "Beta" (handleSync "Alpha" initial).

Definition alpha_answered : World :=
  default initial
    (step IndexTsx (Settle 0 (Result_returned sample_result)) syncing_two).

Definition local_only_game : GameEntry :=
  {| name := "Iji"; game_path := "/games/Iji"; defined_path := None;
     steam_appid := 0; proton_version := "GE"; proton_dependencies := [];
     proton_sync_paths := []; remote_path := None; executable := None;
     categories := None; launch_options := None; installed := false;
     prefix_ready := false; prefix_path := ""; backup_path := "/backup/Iji";
     last_backup := None; remote_available := false |}.

(** * Properties *)

(** ** The model on the sample data *)

Example loaded_is_clean :
  settings loaded = VRef 1 /\ settingsDraft loaded = VRef 1 /\ settingsDirty loaded = false.
Proof. by repeat split. Qed.

Example edit_copies_the_root_and_shares_the_rest :
  settingsDraft edited = VRef 2
  /\ get_path (objects edited) (settingsDraft edited) ["localLibraryPath"]
     = Some (VStr "/mnt/games")
  /\ get_path (objects edited) (settings edited) ["localLibraryPath"] = Some (VStr "/games")
  /\ get_path (objects edited) (settingsDraft edited) ["proton"] = Some (VRef 0)
  /\ get_path (objects edited) (settings edited) ["proton"] = Some (VRef 0).
Proof. by repeat split. Qed.

Example empty_path_writes_the_key_undefined :
  get_path (objects (mutateDraft [] (VBool true) loaded))
    (settingsDraft (mutateDraft [] (VBool true) loaded)) ["undefined"] = Some (VBool true).
Proof. reflexivity. Qed.

Example installing_leaves_the_card_idle :
  is_busy installing "install-Celeste" = true
  /\ card_busy installing sample_game = false
  /\ install_button installing sample_game = Some false.
Proof. by repeat split. Qed.

(** ** The updater of [mutateDraft] *)

Section mutate_facts.
Implicit Types (h : heap) (o : obj) (p q : list string) (v x y : value).

Lemma preserved_refl h : preserved h h.
Proof. by intros l o. Qed.

Lemma get_path_preserved h0 h q : forall x y,
  preserved h0 h -> get_path h0 x q = Some y -> get_path h x q = Some y.
Proof.
  induction q as [|k q IH]; intros x y Hp; cbn [get_path]; [done|].
  destruct x as [| | |l]; try done.
  destruct (h0 !! l) as [o|] eqn:Hl; [|done].
  rewrite (Hp _ _ Hl). destruct (o !! k); [|done]. by apply IH.
Qed.

Lemma write_path_single h c k v : write_path h c [k] v = set_prop h c k v.
Proof. reflexivity. Qed.

Lemma write_path_cons h c k k' p v :
  write_path h c (k :: k' :: p) v =
  write_path (set_prop (h ++ [spread h (obj_at h c !! k)]) c k (VRef (length h)))
    (length h) (k' :: p) v.
Proof.
  unfold write_path. cbn [length Nat.sub take descend].
  rewrite Nat.sub_0_r. reflexivity.
Qed.

Lemma obj_at_app h c o : c < length h -> obj_at (h ++ [o]) c = obj_at h c.
Proof. intros Hc. unfold obj_at. by rewrite lookup_app_l. Qed.

Lemma set_prop_length h c k v : length (set_prop h c k v) = length h.
Proof. unfold set_prop. by rewrite length_insert. Qed.

Lemma set_prop_lookup h c k v :
  c < length h -> set_prop h c k v !! c = Some (<[k := v]> (obj_at h c)).
Proof. intros Hc. unfold set_prop. by rewrite list_lookup_insert_eq. Qed.

Lemma set_prop_lookup_ne h c k v l : l ≠ c -> set_prop h c k v !! l = h !! l.
Proof. intros Hc. unfold set_prop. by rewrite list_lookup_insert_ne. Qed.

(** What a write does to the store: the cursor object gets its first
    field replaced, every other existing object is left alone. *)
Lemma write_path_store p : forall h c k v,
  c < length h ->
  let hf := write_path h c (k :: p) v in
  (forall l, l < length h -> l ≠ c -> hf !! l = h !! l)
  /\ hf !! c = Some (<[k := match p with [] => v | _ => VRef (length h) end]>
                      (obj_at h c)).
Proof.
  induction p as [|k' p IH]; intros h c k v Hc; cbn zeta.
  - rewrite write_path_single. split.
    + intros l _ Hl. by apply set_prop_lookup_ne.
    + by apply set_prop_lookup.
  - rewrite write_path_cons.
    set (h1 := h ++ [spread h (obj_at h c !! k)]).
    set (h2 := set_prop h1 c k (VRef (length h))).
    assert (Hlen1 : length h1 = S (length h)).
    { unfold h1. rewrite length_app. simpl. lia. }
    assert (Hlen2 : length h2 = S (length h)).
    { unfold h2. by rewrite set_prop_length. }
    destruct (IH h2 (length h) k' v) as [Hother _]; [lia|].
    split.
    + intros l Hl Hne. rewrite Hother by lia.
      unfold h2. rewrite set_prop_lookup_ne by done.
      unfold h1. by rewrite lookup_app_l.
    + rewrite Hother by lia. unfold h2.
      rewrite set_prop_lookup by lia. unfold h1. by rewrite obj_at_app.
Qed.

Lemma write_path_preserved h0 h c k p v :
  preserved h0 h -> length h0 <= c -> c < length h ->
  preserved h0 (write_path h c (k :: p) v).
Proof.
  intros Hp Hc0 Hc l o Hl.
  pose proof (lookup_lt_Some _ _ _ Hl) as Hlt.
  destruct (write_path_store p h c k v Hc) as [Hother _].
  rewrite Hother; [by apply Hp| |lia].
  apply lookup_lt_Some with o. by apply Hp.
Qed.

(** Reading through the written store: the written path holds the new
    value, and every path that parts ways with it reads what it read from
    the object the cursor object was copied from. *)
Lemma write_path_read p : forall h0 h c o k v,
  preserved h0 h -> length h0 <= c -> h !! c = Some o ->
  let hf := write_path h c (k :: p) v in
  get_path hf (VRef c) (k :: p) = Some v
  /\ forall q y, diverges q (k :: p) = true ->
       get_in h0 o q = Some y -> get_path hf (VRef c) q = Some y.
Proof.
  induction p as [|k' p IH]; intros h0 h c o k v Hp Hc0 Hco; cbn zeta.
  - pose proof (lookup_lt_Some _ _ _ Hco) as Hc.
    destruct (write_path_store [] h c k v Hc) as [_ Hat].
    pose proof (write_path_preserved h0 h c k [] v Hp Hc0 Hc) as Hpf.
    unfold obj_at in Hat. rewrite Hco in Hat. simpl in Hat.
    split.
    + cbn [get_path]. rewrite Hat. by rewrite lookup_insert_eq.
    + intros [|s q] y Hd Hq; [done|]. simpl in Hd, Hq |- *.
      rewrite Hat. destruct (String.eqb_spec s k) as [->|Hne]; [by destruct q|].
      rewrite lookup_insert_ne by done.
      destruct (o !! s); [|done]. by apply get_path_preserved with h0.
  - pose proof (lookup_lt_Some _ _ _ Hco) as Hc.
    assert (Hobj : obj_at h c = o) by (unfold obj_at; by rewrite Hco).
    destruct (write_path_store (k' :: p) h c k v Hc) as [_ Hat].
    revert Hat. rewrite write_path_cons, Hobj.
    set (child := spread h (o !! k)).
    set (h1 := h ++ [child]).
    set (h2 := set_prop h1 c k (VRef (length h))).
    intros Hat.
    assert (Hp2 : preserved h0 h2).
    { intros l o' Hl. unfold h2. pose proof (lookup_lt_Some _ _ _ Hl).
      rewrite set_prop_lookup_ne by lia. unfold h1.
      rewrite lookup_app_l; [by apply Hp|]. apply lookup_lt_Some with o'. by apply Hp. }
    assert (Hchild : h2 !! length h = Some child).
    { unfold h2. rewrite set_prop_lookup_ne by lia. unfold h1.
      rewrite lookup_app_r by lia. by rewrite Nat.sub_diag. }
    assert (Hle : length h0 <= length h) by lia.
    assert (Hpf : preserved h0 (write_path h2 (length h) (k' :: p) v)).
    { apply write_path_preserved; [done..|]. by apply lookup_lt_Some with child. }
    destruct (IH h0 h2 (length h) child k' v Hp2 Hle Hchild) as [Hread Hframe].
    split.
    + change (get_path ?hf (VRef c) (k :: k' :: p))
        with (match hf !! c with
              | Some o' => match o' !! k with
                           | Some x => get_path hf x (k' :: p) | None => None end
              | None => None end).
      rewrite Hat. by rewrite lookup_insert_eq.
    + intros [|s q] y Hd Hq; [done|].
      change (get_path ?hf (VRef c) (s :: q))
        with (match hf !! c with
              | Some o' => match o' !! s with
                           | Some x => get_path hf x q | None => None end
              | None => None end).
      rewrite Hat. simpl in Hd, Hq.
      destruct (String.eqb_spec s k) as [->|Hne].
      * rewrite lookup_insert_eq. apply Hframe; [done|].
        destruct q as [|s' q]; [done|].
        destruct (o !! k) as [x|] eqn:Hk; [|done].
        destruct x as [| | |l]; try done. simpl in Hq.
        destruct (h0 !! l) as [ol|] eqn:Hl; [|done].
        unfold child. simpl. unfold obj_at. rewrite (Hp _ _ Hl). simpl. done.
      * rewrite lookup_insert_ne by done.
        destruct (o !! s); [|done]. by apply get_path_preserved with h0.
Qed.
End mutate_facts.

Section mutate_ancestors.
Implicit Types (h : heap) (o : obj) (p q : list string) (v x y : value).

(** The fresh copies along the written path: each ancestor is a new
    object holding the fields of the object it replaces, with only the
    field on the path changed. *)
Lemma write_path_ancestors a : forall h0 h c src o s r v leaf,
  preserved h0 h -> length h0 <= c -> h !! c = Some o -> h0 !! src = Some o ->
  get_path h0 (VRef src) (a ++ s :: r) = Some leaf ->
  let hf := write_path h c (a ++ s :: r) v in
  exists la oa la' x,
    get_path h0 (VRef src) a = Some (VRef la) /\ h0 !! la = Some oa
    /\ get_path hf (VRef c) a = Some (VRef la') /\ length h0 <= la'
    /\ hf !! la' = Some (<[s := x]> oa).
Proof.
  induction a as [|k a IH]; intros h0 h c src o s r v leaf Hp Hc0 Hco Hsrc Hleaf;
    cbn zeta.
  - pose proof (lookup_lt_Some _ _ _ Hco) as Hc.
    destruct (write_path_store r h c s v Hc) as [_ Hat].
    unfold obj_at in Hat. rewrite Hco in Hat. simpl in Hat.
    by exists src, o, c, (match r with [] => v | _ => VRef (length h) end).
  - pose proof (lookup_lt_Some _ _ _ Hco) as Hc.
    assert (Hobj : obj_at h c = o) by (unfold obj_at; by rewrite Hco).
    change ((k :: a) ++ s :: r) with (k :: (a ++ s :: r)) in *.
    cbn [get_path] in Hleaf. rewrite Hsrc in Hleaf.
    destruct (o !! k) as [xk|] eqn:Hk; [|done].
    destruct (a ++ s :: r) as [|k' p] eqn:Hrest; [by destruct a|].
    destruct xk as [| | |lk]; try done.
    pose proof Hleaf as Hleaf'. cbn [get_path] in Hleaf'.
    destruct (h0 !! lk) as [ok|] eqn:Hlk; [|done]. clear Hleaf'.
    destruct (write_path_store (k' :: p) h c k v Hc) as [_ Hat].
    revert Hat. rewrite write_path_cons, Hobj, Hk.
    set (h2 := set_prop (h ++ [spread h (Some (VRef lk))]) c k (VRef (length h))).
    intros Hat.
    assert (Hp2 : preserved h0 h2).
    { intros l o' Hl. unfold h2. pose proof (lookup_lt_Some _ _ _ Hl).
      rewrite set_prop_lookup_ne by lia.
      rewrite lookup_app_l; [by apply Hp|]. apply lookup_lt_Some with o'. by apply Hp. }
    assert (Hchild : h2 !! length h = Some ok).
    { unfold h2. rewrite set_prop_lookup_ne by lia.
      rewrite lookup_app_r by lia. rewrite Nat.sub_diag. simpl.
      unfold obj_at. by rewrite (Hp _ _ Hlk). }
    rewrite <- Hrest in Hleaf |- *.
    destruct (IH h0 h2 (length h) lk ok s r v leaf Hp2 ltac:(lia) Hchild Hlk Hleaf)
      as (la & oa & la' & x & Ha & Hoa & Ha' & Hfresh & Hcopy).
    exists la, oa, la', x. repeat split; try done.
    + cbn [get_path]. by rewrite Hsrc, Hk.
    + cbn [get_path]. rewrite Hrest, Hat.
      rewrite lookup_insert_eq. by rewrite <- Hrest.
Qed.

(** Two different paths that both end in a leaf part ways somewhere. *)
Lemma leaves_diverge h q : forall p v x y,
  get_path h v q = Some x -> is_leaf x = true ->
  get_path h v p = Some y -> is_leaf y = true ->
  q ≠ p -> diverges q p = true.
Proof.
  induction q as [|s q IH]; intros [|t p] v x y Hq Hx Hp Hy Hne; try done.
  - simpl in Hq. injection Hq as <-. by destruct v.
  - simpl in Hp. injection Hp as <-. by destruct v.
  - cbn [get_path] in Hq, Hp. cbn [diverges].
    destruct (String.eqb_spec s t) as [->|]; [|done].
    destruct v as [| | |l]; try done.
    destruct (h !! l) as [o|]; [|done].
    destruct (o !! t) as [z|]; [|done].
    apply (IH p z x y); try done. congruence.
Qed.

Lemma mutateDraft_updater_ref p v h d :
  mutateDraft_updater p v h (VRef d) =
  (write_path (h ++ [obj_at h d]) (length h) p v, VRef (length h)).
Proof.
  unfold mutateDraft_updater, write_path. simpl.
  by destruct (descend _ _ _).
Qed.

Lemma mutateDraft_ref p v w d :
  settingsDraft w = VRef d ->
  mutateDraft p v w =
  setSettingsDirty true
    (setSettingsDraft (VRef (length (objects w)))
       (set_objects (write_path (objects w ++ [obj_at (objects w) d])
                       (length (objects w)) p v) w)).
Proof.
  intros Hd. unfold mutateDraft. by rewrite Hd, mutateDraft_updater_ref.
Qed.
End mutate_ancestors.

(** C4. For a non-empty path [p] that addresses a leaf of the draft,
    [mutateDraft p v] makes [p] read [v]; every other leaf reads the value it
    read before, and so does every path that parts ways with [p], references
    included (untouched subtrees are shared, not copied); every ancestor along
    [p] is a fresh object with the fields of the one it replaces, only the
    field on the path differing; objects already in the store are not
    written; the dirty flag is set and the persisted settings are kept. *)
Theorem mutateDraft_changes_only_the_leaf (w : World) (p : list string) (v leaf : value) :
  p ≠ [] ->
  get_path (objects w) (settingsDraft w) p = Some leaf ->
  is_leaf leaf = true ->
  let w' := mutateDraft p v w in
  get_path (objects w') (settingsDraft w') p = Some v
  /\ (forall q x, q ≠ p -> is_leaf x = true ->
        get_path (objects w) (settingsDraft w) q = Some x ->
        get_path (objects w') (settingsDraft w') q = Some x)
  /\ (forall q y, diverges q p = true ->
        get_path (objects w) (settingsDraft w) q = Some y ->
        get_path (objects w') (settingsDraft w') q = Some y)
  /\ (forall a s r, p = a ++ s :: r ->
        exists la oa la' x,
          get_path (objects w) (settingsDraft w) a = Some (VRef la)
          /\ objects w !! la = Some oa
          /\ get_path (objects w') (settingsDraft w') a = Some (VRef la')
          /\ length (objects w) <= la'
          /\ objects w' !! la' = Some (<[s := x]> oa))
  /\ preserved (objects w) (objects w')
  /\ settingsDirty w' = true
  /\ settings w' = settings w.
Proof.
  intros Hne Hleaf Hisleaf.
  destruct p as [|k p]; [done|]. clear Hne.
  destruct (settingsDraft w) as [| | |d] eqn:Hd; try done.
  pose proof Hleaf as Hleaf'. cbn [get_path] in Hleaf'.
  destruct (objects w !! d) as [o|] eqn:Ho; [|done]. clear Hleaf'.
  cbn zeta. rewrite (mutateDraft_ref _ _ _ _ Hd).
  cbn [objects settingsDraft settingsDirty settings setSettingsDirty setSettingsDraft
       set_objects].
  assert (Hobj : obj_at (objects w) d = o) by (unfold obj_at; by rewrite Ho).
  rewrite Hobj.
  set (h := objects w) in *.
  assert (Hp : preserved h (h ++ [o])).
  { intros l o' Hl. rewrite lookup_app_l; [done|]. by apply lookup_lt_Some with o'. }
  assert (Hc : (h ++ [o]) !! length h = Some o).
  { rewrite lookup_app_r by lia. by rewrite Nat.sub_diag. }
  destruct (write_path_read p h (h ++ [o]) (length h) o k v Hp ltac:(lia) Hc)
    as [Hread Hframe].
  assert (Hin : forall q y, q ≠ [] -> get_path h (VRef d) q = Some y -> get_in h o q = Some y).
  { intros [|s q] y Hq; [done|]. cbn [get_path get_in]. by rewrite Ho. }
  assert (Hdiv : forall q y, diverges q (k :: p) = true ->
            get_path h (VRef d) q = Some y ->
            get_path (write_path (h ++ [o]) (length h) (k :: p) v) (VRef (length h)) q
            = Some y).
  { intros q y Hq Hy. apply Hframe; [done|]. apply Hin; [|done]. by destruct q. }
  split; [done|]. split.
  { intros q x Hq Hx Hgx. apply Hdiv; [|done].
    by apply (leaves_diverge h q (k :: p) (VRef d) x leaf). }
  split; [done|]. split.
  { intros a s r Hp'. rewrite Hp' in Hleaf |- *.
    by apply (write_path_ancestors a h (h ++ [o]) (length h) d o s r v leaf). }
  split; [|done].
  apply write_path_preserved; [done|lia|].
  rewrite length_app. simpl. lia.
Qed.

Lemma mutateDraft_changes_only_the_leaf_witness :
  get_path (objects (mutateDraft ["proton"; "defaultVersion"] (VStr "9") loaded))
    (settingsDraft (mutateDraft ["proton"; "defaultVersion"] (VStr "9") loaded))
    ["proton"; "defaultVersion"] = Some (VStr "9").
Proof.
  refine (proj1 (mutateDraft_changes_only_the_leaf loaded ["proton"; "defaultVersion"]
                   (VStr "9") (VStr "GE") _ _ _));
    [discriminate | vm_compute; reflexivity | reflexivity].
Defined.

(** ** Suspended tasks and the busy map *)

Section tasks.
Implicit Types (w : World) (t : task) (k key : string) (ts : list task).

Lemma in_flight_spawn w t k : in_flight w k -> in_flight (spawn t w) k.
Proof.
  intros (t' & Hin & Hk). exists t'. split; [|done].
  cbn. apply elem_of_app. by left.
Qed.

Lemma in_flight_spawned w o : in_flight (spawn (Awaiting o) w) (op_key o).
Proof.
  exists (Awaiting o). split; [|done]. cbn. apply elem_of_app. right.
  by apply list_elem_of_singleton.
Qed.

Lemma in_flight_end_task w i t k :
  pending w !! i = Some t -> task_key t ≠ Some k ->
  in_flight w k -> in_flight (end_task i w) k.
Proof.
  intros Hi Hne (t' & Hin & Hk). exists t'. split; [|done]. cbn.
  rewrite (delete_Permutation _ _ _ Hi) in Hin.
  apply elem_of_cons in Hin as [->|Hin]; [congruence|done].
Qed.

Lemma in_flight_set_task w i t t' k :
  pending w !! i = Some t -> task_key t' = task_key t ->
  in_flight w k -> in_flight (set_task i t' w) k.
Proof.
  intros Hi Hkey (t0 & Hin & Hk).
  apply list_elem_of_lookup in Hin as [j Hj].
  destruct (decide (j = i)) as [->|Hne].
  - exists t'. split; [|congruence]. cbn.
    apply list_elem_of_lookup. exists i.
    apply list_lookup_insert_eq. by apply lookup_lt_Some with t.
  - exists t0. split; [|done]. cbn.
    apply list_elem_of_lookup. exists j. by rewrite list_lookup_insert_ne.
Qed.
End tasks.

Lemma busy_frame_refl w : busy_frame w w.
Proof. split; [done|]. exists []. by rewrite app_nil_r. Qed.

Lemma busy_frame_trans w1 w2 w3 : busy_frame w1 w2 -> busy_frame w2 w3 -> busy_frame w1 w3.
Proof.
  intros [Hb1 [ts1 Hp1]] [Hb2 [ts2 Hp2]]. split; [congruence|].
  exists (ts1 ++ ts2). by rewrite Hp2, Hp1, app_assoc.
Qed.

Lemma busy_frame_same w w' :
  busyMap w' = busyMap w -> pending w' = pending w -> busy_frame w w'.
Proof. intros Hb Hp. split; [done|]. exists []. by rewrite app_nil_r. Qed.

Lemma busy_frame_loadGames w : busy_frame w (loadGames w).
Proof. split; [done|]. by exists [LoadingGames]. Qed.

Lemma busy_frame_loadSettings w : busy_frame w (loadSettings w).
Proof. split; [done|]. by exists [LoadingSettings]. Qed.

Lemma busy_frame_persistSettings w : busy_frame w (persistSettings w).
Proof.
  unfold persistSettings. destruct (_ || _); [apply busy_frame_refl|].
  split; [done|]. by exists [Saving].
Qed.

Lemma busy_frame_mutateDraft p v w : busy_frame w (mutateDraft p v w).
Proof.
  unfold mutateDraft. destruct (mutateDraft_updater _ _ _ _).
  by apply busy_frame_same.
Qed.

Lemma busy_frame_loadSettings_resolved j w : busy_frame w (loadSettings_resolved j w).
Proof.
  unfold loadSettings_resolved. destruct (alloc_json _ _). by apply busy_frame_same.
Qed.

Lemma busy_frame_persistSettings_resolved j w :
  busy_frame w (persistSettings_resolved j w).
Proof.
  unfold persistSettings_resolved. destruct (alloc_json _ _). by apply busy_frame_same.
Qed.

Lemma busy_frame_settings_effect before w : busy_frame w (settings_effect before w).
Proof.
  unfold settings_effect. destruct (decide _); [apply busy_frame_refl|].
  destruct (truthy _); [apply busy_frame_loadGames|apply busy_frame_refl].
Qed.

Lemma busy_frame_callWithToaster success out w :
  busy_frame w (callWithToaster_settled success out w).1.
Proof. destruct out; by apply busy_frame_same. Qed.

Lemma busy_frame_handler_try o out w : busy_frame w (handler_try o out w).
Proof.
  unfold handler_try. destruct out as [r|e]; [|apply busy_frame_refl].
  destruct (op_steps_title o) as [tl|]; [|apply busy_frame_refl].
  destruct (steps r) as [[|s l]|]; by apply busy_frame_same.
Qed.

Create HintDb frame.
#[local] Hint Resolve busy_frame_refl busy_frame_loadGames busy_frame_loadSettings
  busy_frame_persistSettings busy_frame_mutateDraft busy_frame_loadSettings_resolved
  busy_frame_persistSettings_resolved busy_frame_settings_effect
  busy_frame_callWithToaster busy_frame_handler_try : frame.

Lemma busy_inv_frame w w' : busy_frame w w' -> busy_inv w -> busy_inv w'.
Proof.
  intros [Hb [ts Hp]] Hinv k Hk. rewrite Hb in Hk.
  destruct (Hinv k Hk) as (t & Hin & Hkey). exists t. split; [|done].
  rewrite Hp. apply elem_of_app. by left.
Qed.

Lemma busy_inv_end_task w i t :
  pending w !! i = Some t -> task_key t = None -> busy_inv w -> busy_inv (end_task i w).
Proof.
  intros Hi Hnone Hinv k Hk. apply (in_flight_end_task w i t); [done|congruence|].
  by apply Hinv.
Qed.

Lemma busy_inv_handler_begin o w : busy_inv w -> busy_inv (handler_begin o w).
Proof.
  intros Hinv k Hk. unfold handler_begin.
  destruct (decide (k = op_key o)) as [->|Hne].
  - apply in_flight_spawned.
  - apply in_flight_spawn. cbn in Hk. rewrite lookup_insert_ne in Hk by done.
    destruct (Hinv k Hk) as (t & Hin & Hkey). by exists t.
Qed.

Lemma busy_inv_set_task w i o out :
  pending w !! i = Some (Awaiting o) -> busy_inv w -> busy_inv (set_task i (Toasted o out) w).
Proof.
  intros Hi Hinv k Hk. apply (in_flight_set_task w i (Awaiting o)); [done..|].
  by apply Hinv.
Qed.

Lemma handler_try_busy o out w :
  busyMap (handler_try o out w) = busyMap w /\ pending (handler_try o out w) = pending w.
Proof.
  unfold handler_try. destruct out as [r|e]; [|done].
  destruct (op_steps_title o) as [tl|]; [|done]. by destruct (steps r) as [[|s l]|].
Qed.

Lemma busy_inv_finally w i o out :
  pending w !! i = Some (Toasted o out) -> busy_inv w ->
  busy_inv (markBusy (op_key o) false (handler_try o out (end_task i w))).
Proof.
  intros Hi Hinv k Hk. cbn in Hk.
  destruct (handler_try_busy o out (end_task i w)) as [Hb Hp].
  rewrite Hb in Hk. cbn in Hk.
  destruct (decide (k = op_key o)) as [->|Hne].
  - by rewrite lookup_insert_eq in Hk.
  - rewrite lookup_insert_ne in Hk by done.
    destruct (in_flight_end_task w i _ k Hi) as (t & Hin & Hkey);
      [cbn; congruence | by apply Hinv |].
    exists t. split; [|done]. cbn. by rewrite Hp.
Qed.

Lemma busy_inv_step fe ev w w' : step fe ev w = Some w' -> busy_inv w -> busy_inv w'.
Proof.
  intros Hstep Hinv. destruct ev as [| path v | | | o | i r | i]; cbn [step] in Hstep.
  - injection Hstep as <-. eapply busy_inv_frame; eauto with frame.
  - injection Hstep as <-. eapply busy_inv_frame; eauto with frame.
  - injection Hstep as <-. eapply busy_inv_frame; eauto with frame.
  - injection Hstep as <-. eapply busy_inv_frame; eauto with frame.
  - destruct (has_operation fe o); [|done]. injection Hstep as <-.
    by apply busy_inv_handler_begin.
  - destruct (pending w !! i) as [t|] eqn:Hi; [|done].
    destruct t as [| | | o | o out]; destruct r as [j | payload | result | e];
      try done; injection Hstep as <-.
    + eapply busy_inv_frame; [|eapply busy_inv_end_task; eauto].
      eapply busy_frame_trans;
        [apply busy_frame_loadSettings_resolved | apply busy_frame_settings_effect].
    + eapply busy_inv_frame; [|eapply busy_inv_end_task; eauto]. by apply busy_frame_same.
    + eapply busy_inv_frame; [|eapply busy_inv_end_task; eauto]. by apply busy_frame_same.
    + eapply busy_inv_frame; [|eapply busy_inv_end_task; eauto]. by apply busy_frame_same.
    + eapply busy_inv_frame; [|eapply busy_inv_end_task; eauto].
      eapply busy_frame_trans;
        [apply busy_frame_persistSettings_resolved | apply busy_frame_settings_effect].
    + eapply busy_inv_frame; [|eapply busy_inv_end_task; eauto]. by apply busy_frame_same.
    + by apply (busy_inv_set_task w i o (Resolved result)).
    + by apply (busy_inv_set_task w i o (Rejected e)).
  - destruct (pending w !! i) as [t|] eqn:Hi; [|done].
    destruct t as [| | | o | o out]; try done. injection Hstep as <-.
    unfold handler_resumed, handler_finally.
    eapply busy_inv_frame; [apply busy_frame_loadGames|].
    by apply busy_inv_finally.
Qed.

Lemma busy_inv_run fe evs : forall w w',
  run fe evs w = Some w' -> busy_inv w -> busy_inv w'.
Proof.
  induction evs as [|ev evs IH]; intros w w' Hrun Hinv; cbn [run] in Hrun.
  - by injection Hrun as <-.
  - destruct (step fe ev w) as [w1|] eqn:Hstep; [|done].
    apply (IH w1); [done|]. by apply (busy_inv_step fe ev w).
Qed.

Lemma busy_inv_reachable fe w : reachable fe w -> busy_inv w.
Proof.
  intros [evs Hrun]. apply (busy_inv_run fe evs initial); [done|].
  intros k Hk. unfold initial in Hk. cbn [busyMap] in Hk.
  by rewrite lookup_empty in Hk.
Qed.

(** ** Effects of the segments *)

Lemma refreshes_emit e w :
  refreshes (emit e w) = refreshes w + (if is_refresh e then 1 else 0).
Proof.
  unfold refreshes. cbn [emit set_effects effects].
  rewrite filter_app, length_app. f_equal. destruct e as [t|r]; [done|by destruct r].
Qed.

Lemma refreshes_loadGames w : refreshes (loadGames w) = S (refreshes w).
Proof.
  transitivity
    (refreshes (emit (Call load_games) (setGlobalError None (setGamesLoading true w))));
    [reflexivity|].
  rewrite refreshes_emit. cbn [is_refresh].
  change (refreshes (setGlobalError None (setGamesLoading true w))) with (refreshes w).
  lia.
Qed.

Lemma refreshes_handler_begin o w : refreshes (handler_begin o w) = refreshes w.
Proof.
  transitivity (refreshes (emit (Call (op_call o)) (markBusy (op_key o) true w)));
    [reflexivity|].
  rewrite refreshes_emit.
  change (refreshes (markBusy (op_key o) true w)) with (refreshes w).
  destruct o; cbn; lia.
Qed.

Lemma notifications_emit e w :
  notifications (emit e w) = notifications w ++ option_list (notification e).
Proof.
  unfold notifications. cbn [emit set_effects effects].
  rewrite omap_app. by destruct e.
Qed.

Lemma handler_try_effects o out w :
  refreshes (handler_try o out w) = refreshes w
  /\ notifications (handler_try o out w) =
     notifications w ++
     match out, op_steps_title o with
     | Resolved r, Some steps_title =>
         match steps r with
         | Some (s :: l) =>
             [{| title := steps_title; body := join ", " (s :: l); critical := false |}]
         | _ => []
         end
     | _, _ => []
     end.
Proof.
  unfold handler_try. destruct out as [r|e]; [|by rewrite app_nil_r].
  destruct (op_steps_title o) as [tl|]; [|by rewrite app_nil_r].
  destruct (steps r) as [[|s l]|]; try by rewrite app_nil_r.
  unfold toast. rewrite refreshes_emit, notifications_emit. split; [|done].
  cbn. lia.
Qed.

Lemma step_resume fe w i o out :
  pending w !! i = Some (Toasted o out) ->
  step fe (Resume i) w = Some (handler_resumed o out (end_task i w)).
Proof. intros Hi. cbn [step]. by rewrite Hi. Qed.

Lemma step_settle fe w i o out :
  pending w !! i = Some (Awaiting o) ->
  step fe (Settle i (response_of out)) w =
  Some (set_task i (Toasted o out) (callWithToaster_settled (op_success o) out w).1).
Proof. intros Hi. cbn [step]. rewrite Hi. by destruct out. Qed.

Lemma resumed_not_busy o out w :
  busyMap (handler_resumed o out w) !! op_key o = Some false.
Proof.
  unfold handler_resumed, handler_finally. cbn. by rewrite lookup_insert_eq.
Qed.

(** ** The draft store *)

(** C1, as stated, fails: with a draft present, the dirty flag false and no
    save in flight, [persistSettings] does send the draft. *)
Lemma persistSettings_does_not_test_dirty :
  ~ (forall w, settingsDraft w = VNull \/ settingsDirty w = false \/ savingSettings w = true ->
               persistSettings w = w).
Proof.
  intros H. specialize (H loaded (or_intror (or_introl eq_refl))).
  apply (f_equal savingSettings) in H. vm_compute in H. discriminate.
Qed.

(** C1, amended.  [persistSettings] does nothing at all (no call, no
    notification, no state change) when the draft is unset or a save is in
    flight.  It does not look at the dirty flag; that case is covered by the
    Save button, which is disabled while the dirty flag is false: a press of
    Save does nothing in each of the three cases. *)
Theorem commit_is_noop (w : World) :
  truthy (settingsDraft w) = false \/ settingsDirty w = false \/ savingSettings w = true ->
  press_save w = w
  /\ (truthy (settingsDraft w) = false \/ savingSettings w = true -> persistSettings w = w).
Proof.
  intros H. split.
  - unfold press_save, save_button.
    destruct (truthy (settingsDraft w)) eqn:Ht; [|done].
    destruct H as [H|[H|H]]; [done| |]; rewrite H; [done|].
    by rewrite orb_true_r.
  - intros [H'|H']; unfold persistSettings; rewrite H'; [done|].
    by rewrite orb_true_r.
Qed.

Lemma commit_is_noop_witness : press_save loaded = loaded.
Proof.
  refine (proj1 (commit_is_noop loaded _)). right. left. reflexivity.
Defined.




(** A failed save, whenever it arrives: the continuation leaves the store
    alone and sends one critical notification. *)
Lemma save_rejected fe w i e :
  pending w !! i = Some Saving ->
  exists w',
    step fe (Settle i (Threw e)) w = Some w'
    /\ objects w' = objects w /\ settings w' = settings w
    /\ settingsDraft w' = settingsDraft w /\ settingsDirty w' = settingsDirty w
    /\ savingSettings w' = false
    /\ notifications w' =
       notifications w ++
       [{| title := "Deckyfin"; body := "Unable to save settings"; critical := true |}].
Proof.
  intros Hi. eexists. cbn [step]. rewrite Hi. split; [reflexivity|].
  repeat split. unfold notifications.
  cbn [persistSettings_rejected toast emit end_task setSavingSettings set_effects
       set_pending effects].
  by rewrite omap_app.
Qed.

(** C6. A press of Save on a dirty draft sends that draft and changes
    nothing else; if the save then fails, the draft (reference and objects),
    the dirty flag and the persisted settings are what they were, and
    exactly one notification has been sent, a critical one. *)
Theorem failed_save_keeps_the_draft (fe : frontend) (w : World) (e : thrown) :
  truthy (settingsDraft w) = true -> settingsDirty w = true -> savingSettings w = false ->
  exists w1 w2,
    step fe Commit w = Some w1
    /\ press_save w = w1
    /\ effects w1 = effects w ++ [Call (save_settings (settingsDraft w))]
    /\ step fe (Settle (length (pending w)) (Threw e)) w1 = Some w2
    /\ settingsDraft w2 = settingsDraft w
    /\ objects w2 = objects w
    /\ settingsDirty w2 = true
    /\ settings w2 = settings w
    /\ notifications w2 =
       notifications w ++
       [{| title := "Deckyfin"; body := "Unable to save settings"; critical := true |}].
Proof.
  intros Ht Hd Hs.
  assert (Hp : persistSettings w =
               spawn Saving (emit (Call (save_settings (settingsDraft w)))
                               (setSavingSettings true w))).
  { unfold persistSettings. by rewrite Ht, Hs. }
  assert (Hi : pending (persistSettings w) !! length (pending w) = Some Saving).
  { rewrite Hp. cbn. rewrite lookup_app_r by lia. by rewrite Nat.sub_diag. }
  destruct (save_rejected fe _ _ e Hi) as (w2 & Hstep & Ho & Hset & Hdr & Hdi & _ & Hn).
  exists (persistSettings w), w2. split; [done|]. split.
  { unfold press_save, save_button. by rewrite Ht, Hd, Hs. }
  split; [by rewrite Hp|]. split; [done|].
  rewrite Hdr, Ho, Hdi, Hset, Hn, Hp. repeat split; try done.
  unfold notifications.
  cbn [effects spawn emit set_pending set_effects setSavingSettings].
  rewrite omap_app. cbn. by rewrite app_nil_r.
Qed.

Lemma failed_save_keeps_the_draft_witness :
  exists w1 w2,
    step IndexTsx Commit edited = Some w1
    /\ press_save edited = w1
    /\ effects w1 = effects edited ++ [Call (save_settings (settingsDraft edited))]
    /\ step IndexTsx (Settle (length (pending edited)) (Threw (Some "timeout"))) w1 = Some w2
    /\ settingsDraft w2 = settingsDraft edited
    /\ objects w2 = objects edited
    /\ settingsDirty w2 = true
    /\ settings w2 = settings edited
    /\ notifications w2 =
       notifications edited ++
       [{| title := "Deckyfin"; body := "Unable to save settings"; critical := true |}].
Proof.
  apply (failed_save_keeps_the_draft IndexTsx edited (Some "timeout")); reflexivity.
Defined.

(** ** The busy map *)

(** C2, as stated, fails: once a download has completed, its key is still
    in the busy map, with the value [false]. *)
Lemma busy_map_keeps_false_entries :
  ~ (forall w, reachable IndexTsx w ->
       forall k b, busyMap w !! k = Some b -> b = true /\ in_flight w k).
Proof.
  intros H.
  assert (Hr : reachable IndexTsx after_download).
  { exists [Click (Download "Celeste"); Settle 0 (Result_returned sample_result); Resume 0].
    vm_compute. reflexivity. }
  destruct (H after_download Hr "download-Celeste" false) as [Hb _]; [|discriminate].
  vm_compute. reflexivity.
Qed.

(** C2, amended.  In every reachable state, every entry of the busy map
    that is [true] belongs to a handler that is still suspended; and when a
    handler completes, its key stays in the map with the value [false]. *)
Theorem busy_entries_are_in_flight (fe : frontend) (w : World) :
  reachable fe w ->
  (forall k, busyMap w !! k = Some true -> in_flight w k)
  /\ (forall i o out, pending w !! i = Some (Toasted o out) ->
        exists w', step fe (Resume i) w = Some w'
                   /\ busyMap w' !! op_key o = Some false).
Proof.
  intros Hr. split; [by apply (busy_inv_reachable fe)|].
  intros i o out Hi. eexists. split; [by apply step_resume|].
  apply resumed_not_busy.
Qed.

Lemma busy_entries_are_in_flight_witness : in_flight syncing "sync-Celeste".
Proof.
  refine (proj1 (busy_entries_are_in_flight Part000 syncing _) "sync-Celeste" _).
  - exists [Click (Sync "Celeste")]. reflexivity.
  - reflexivity.
Defined.

(** C3. Whatever a dispatched call settles with (a result, successful or
    not, or a thrown value), the handler can be resumed, and once it has
    run to its end its key is not busy: the entry is [false]. *)
Theorem settled_dispatch_is_not_busy (fe : frontend) (w : World) (i : nat)
    (o : operation) (out : outcome) :
  pending w !! i = Some (Awaiting o) ->
  exists w1 w2,
    step fe (Settle i (response_of out)) w = Some w1
    /\ pending w1 !! i = Some (Toasted o out)
    /\ step fe (Resume i) w1 = Some w2
    /\ busyMap w2 !! op_key o = Some false
    /\ is_busy w2 (op_key o) = false
    /\ (forall w' j, pending w' !! j = Some (Toasted o out) ->
          exists w2', step fe (Resume j) w' = Some w2'
                      /\ is_busy w2' (op_key o) = false).
Proof.
  intros Hi.
  assert (Hnb : forall w0, is_busy (handler_resumed o out w0) (op_key o) = false).
  { intros w0. unfold is_busy. by rewrite resumed_not_busy. }
  assert (Hi' : pending (set_task i (Toasted o out)
                           (callWithToaster_settled (op_success o) out w).1) !! i
                = Some (Toasted o out)).
  { cbn [set_task set_pending pending]. apply list_lookup_insert_eq.
    destruct (busy_frame_callWithToaster (op_success o) out w) as [_ [ts ->]].
    rewrite length_app. apply lookup_lt_Some in Hi. lia. }
  eexists _, _. split; [by apply step_settle|]. split; [done|].
  split; [by apply step_resume|]. split; [apply resumed_not_busy|].
  split; [apply Hnb|].
  intros w' j Hj. eexists. split; [by apply step_resume|]. apply Hnb.
Qed.

Lemma settled_dispatch_is_not_busy_witness :
  exists w1 w2,
    step Part000 (Settle 0 (Threw (Some "rsync failed"))) installing = Some w1
    /\ pending w1 !! 0 = Some (Toasted (Install "Celeste") (Rejected (Some "rsync failed")))
    /\ step Part000 (Resume 0) w1 = Some w2
    /\ busyMap w2 !! "install-Celeste" = Some false
    /\ is_busy w2 "install-Celeste" = false.
Proof.
  destruct (settled_dispatch_is_not_busy Part000 installing 0 (Install "Celeste")
              (Rejected (Some "rsync failed")) eq_refl)
    as (w1 & w2 & H1 & H2 & H3 & H4 & H5 & _).
  by exists w1, w2.
Defined.

(** ** The dispatcher *)

Lemma handler_try_journal o out w :
  journal (handler_try o out w)
  = journal w ++ map (fun t => Did (Notify t)) (steps_toast o out).
Proof.
  unfold handler_try, steps_toast. destruct out as [r|e]; [|by rewrite app_nil_r].
  destruct (op_steps_title o) as [tl|]; [|by rewrite app_nil_r].
  destruct (steps r) as [[|s l]|]; by rewrite ?app_nil_r.
Qed.

(** C8. The end of every handler, whatever the outcome of its call.  After
    the steps notification, if any, the handler calls, in this order: the
    setter of the busy map, with the key set to [false]; then, inside
    [loadGames], the setters of the loading flag and of the error and the
    remote [load_games].  So the key is unmarked first and the refresh is
    invoked after it, once; the handler invokes it nowhere else, and a
    completed dispatch adds exactly one invocation. *)
Theorem dispatch_unmarks_then_refreshes (fe : frontend) (w : World) (i : nat)
    (o : operation) (out : outcome) :
  pending w !! i = Some (Toasted o out) ->
  exists w',
    step fe (Resume i) w = Some w'
    /\ journal w' =
       journal w ++ map (fun t => Did (Notify t)) (steps_toast o out)
       ++ [Wrote (W_busyMap (<[op_key o := false]> (busyMap w)));
           Wrote (W_gamesLoading true); Wrote (W_globalError None);
           Did (Call load_games)]
    /\ (let unmarked := markBusy (op_key o) false (handler_try o out (end_task i w)) in
        w' = loadGames unmarked
        /\ is_busy unmarked (op_key o) = false
        /\ refreshes unmarked = refreshes w
        /\ effects w' = effects unmarked ++ [Call load_games])
    /\ refreshes w' = S (refreshes w)
    /\ (forall w0, refreshes (handler_begin o w0) = refreshes w0)
    /\ (forall w0, refreshes (callWithToaster_settled (op_success o) out w0).1
                   = refreshes w0).
Proof.
  intros Hi. eexists. split; [by apply step_resume|].
  destruct (handler_try_effects o out (end_task i w)) as [Hr _].
  assert (Hu : refreshes (markBusy (op_key o) false (handler_try o out (end_task i w)))
               = refreshes w) by exact Hr.
  split; [|split; [|split; [|split]]].
  - destruct (handler_try_busy o out (end_task i w)) as [Hb _].
    unfold handler_resumed, handler_finally.
    cbn [loadGames markBusy spawn emit journal busyMap set_pending setGlobalError
         setGamesLoading setBusyMap].
    rewrite handler_try_journal, Hb. cbn [end_task set_pending journal busyMap].
    by rewrite <- !app_assoc.
  - cbn zeta. repeat split; [|done].
    unfold is_busy. cbn. by rewrite lookup_insert_eq.
  - unfold handler_resumed, handler_finally. by rewrite refreshes_loadGames, Hu.
  - apply refreshes_handler_begin.
  - intros w0. destruct out; unfold callWithToaster_settled, toast; cbn [fst];
      rewrite refreshes_emit; cbn; lia.
Qed.

Lemma dispatch_unmarks_then_refreshes_witness :
  refreshes after_download = 1.
Proof.
  destruct (dispatch_unmarks_then_refreshes IndexTsx
              (default initial
                 (run IndexTsx [Click (Download "Celeste");
                                Settle 0 (Result_returned sample_result)] initial))
              0 (Download "Celeste") (Resolved sample_result) eq_refl)
    as (w' & Hstep & _ & _ & Hr & _).
  injection Hstep as <-. exact Hr.
Defined.

Lemma notifications_loadGames w : notifications (loadGames w) = notifications w.
Proof.
  transitivity
    (notifications (emit (Call load_games) (setGlobalError None (setGamesLoading true w))));
    [reflexivity|].
  rewrite notifications_emit. cbn [notification option_list]. by rewrite app_nil_r.
Qed.

(** C9, as stated, fails: the sync handler sends the message of a result and
    nothing for its steps. *)
Lemma sync_does_not_forward_steps :
  ~ (forall fe o w i r s l,
       has_operation fe o = true ->
       pending w !! i = Some (Awaiting o) ->
       steps r = Some (s :: l) ->
       forall w1 w2,
         step fe (Settle i (Result_returned r)) w = Some w1 ->
         step fe (Resume i) w1 = Some w2 ->
         exists t1 t2, notifications w2 = notifications w ++ [t1; t2]
                       /\ body t2 = join ", " (s :: l)).
Proof.
  intros H.
  destruct (H Part000 (Sync "Celeste") syncing 0 sample_result "copied" ["linked"]
              eq_refl eq_refl eq_refl _ _ eq_refl eq_refl) as (t1 & t2 & Hn & _).
  vm_compute in Hn. discriminate.
Qed.

(** C9, amended.  When the call of a handler resolves with a result whose
    steps list is not empty, the handlers of install and remove send a
    second notification, titled after the operation, with the steps joined
    by ", "; the other handlers (download, setup, sync, sync-all) send the
    message notification only. *)
Theorem steps_are_forwarded_by_install_and_remove (fe : frontend) (w : World) (i : nat)
    (o : operation) (r : OperationResult) (s : string) (l : list string) :
  pending w !! i = Some (Awaiting o) ->
  steps r = Some (s :: l) ->
  exists w1 w2,
    step fe (Settle i (Result_returned r)) w = Some w1
    /\ step fe (Resume i) w1 = Some w2
    /\ notifications w2 =
       notifications w ++
       {| title := "Deckyfin"; body := default (op_success o) (message r);
          critical := false |} ::
       match o with
       | Install _ =>
           [{| title := "Installation steps"; body := join ", " (s :: l);
               critical := false |}]
       | Remove _ =>
           [{| title := "Removal steps"; body := join ", " (s :: l);
               critical := false |}]
       | _ => []
       end.
Proof.
  intros Hi Hs.
  set (t := {| title := "Deckyfin"; body := default (op_success o) (message r);
               critical := false |}).
  set (w1 := set_task i (Toasted o (Resolved r)) (toast t w)).
  assert (Hi1 : pending w1 !! i = Some (Toasted o (Resolved r))).
  { unfold w1. cbn [set_task set_pending pending toast emit set_effects].
    apply list_lookup_insert_eq. by apply lookup_lt_Some in Hi. }
  exists w1, (handler_resumed o (Resolved r) (end_task i w1)).
  split; [by apply (step_settle fe w i o (Resolved r))|].
  split; [by apply step_resume|].
  unfold handler_resumed, handler_finally. rewrite notifications_loadGames.
  change (notifications (markBusy ?k ?b ?x)) with (notifications x).
  destruct (handler_try_effects o (Resolved r) (end_task i w1)) as [_ ->].
  change (notifications (end_task i w1)) with (notifications (emit (Notify t) w)).
  rewrite notifications_emit, Hs. cbn [notification option_list].
  rewrite <- app_assoc. by destruct o.
Qed.

Lemma steps_are_forwarded_by_install_and_remove_witness :
  exists w1 w2,
    step Part000 (Settle 0 (Result_returned sample_result)) installing = Some w1
    /\ step Part000 (Resume 0) w1 = Some w2
    /\ notifications w2 =
       notifications installing ++
       [{| title := "Deckyfin"; body := "done"; critical := false |};
        {| title := "Installation steps"; body := "copied, linked"; critical := false |}].
Proof.
  apply (steps_are_forwarded_by_install_and_remove Part000 installing 0
           (Install "Celeste") sample_result "copied" ["linked"]); reflexivity.
Defined.

(** ** The library snapshot *)



(** ** The cards of the install/remove front end *)

Lemma is_busy_handler_begin o w key :
  op_key o ≠ key -> is_busy (handler_begin o w) key = is_busy w key.
Proof.
  intros Hne. unfold is_busy, handler_begin. cbn.
  by rewrite lookup_insert_ne.
Qed.

Lemma card_busy_handler_begin o w g :
  op_key o ≠ "download-" +:+ name g ->
  op_key o ≠ "setup-" +:+ pretty (steam_appid g) ->
  op_key o ≠ "sync-" +:+ name g ->
  card_busy (handler_begin o w) g = card_busy w g.
Proof.
  intros H1 H2 H3. unfold card_busy.
  by rewrite !is_busy_handler_begin.
Qed.

Lemma card_busy_callWithToaster success out w g :
  card_busy (callWithToaster_settled success out w).1 g = card_busy w g.
Proof. by destruct out. Qed.

(** C10. The busy flag of a card reads the keys [download-<name>],
    [setup-<appid>] and [sync-<name>] and the global gate, and nothing else;
    the install and remove handlers mark [install-<name>] and
    [remove-<name>].  So starting an install or a remove changes neither the
    busy flag of any card nor the state of its buttons, and this stays so
    while the call is in flight and when it has settled. *)
Theorem install_and_remove_do_not_busy_the_card (w : World) (g : GameEntry) (game : string) :
  card_busy w g =
    (is_busy w ("download-" +:+ name g)
     || is_busy w ("setup-" +:+ pretty (steam_appid g))
     || is_busy w ("sync-" +:+ name g)
     || (gamesLoading w || savingSettings w))
  /\ op_key (Install game) = "install-" +:+ game
  /\ op_key (Remove game) = "remove-" +:+ game
  /\ is_busy (handleInstall game w) ("install-" +:+ game) = true
  /\ is_busy (handleRemove game w) ("remove-" +:+ game) = true
  /\ card_busy (handleInstall game w) g = card_busy w g
  /\ card_busy (handleRemove game w) g = card_busy w g
  /\ install_button (handleInstall game w) g = install_button w g
  /\ remove_button (handleRemove game w) g = remove_button w g
  /\ backup_button (handleRemove game w) g = backup_button w g
  /\ (forall out,
        card_busy (callWithToaster_settled (op_success (Install game)) out
                     (handleInstall game w)).1 g = card_busy w g
        /\ card_busy (callWithToaster_settled (op_success (Remove game)) out
                        (handleRemove game w)).1 g = card_busy w g).
Proof.
  assert (Hi : card_busy (handleInstall game w) g = card_busy w g).
  { apply card_busy_handler_begin; cbn [op_key String.append]; discriminate. }
  assert (Hr : card_busy (handleRemove game w) g = card_busy w g).
  { apply card_busy_handler_begin; cbn [op_key String.append]; discriminate. }
  split; [reflexivity|]. split; [reflexivity|]. split; [reflexivity|].
  split. { unfold is_busy, handleInstall, handler_begin. cbn. by rewrite lookup_insert_eq. }
  split. { unfold is_busy, handleRemove, handler_begin. cbn. by rewrite lookup_insert_eq. }
  split; [done|]. split; [done|].
  split. { unfold install_button. by rewrite Hi. }
  split. { unfold remove_button. by rewrite Hr. }
  split. { unfold backup_button. by rewrite Hr. }
  intros out. by rewrite !card_busy_callWithToaster.
Qed.

(** * Further properties *)

(** ** [mutateDraft] on any draft and any path *)

Section mutate_general.
Implicit Types (h : heap) (o : obj) (p q : list string) (v x y : value).

Lemma preserved_trans h1 h2 h3 : preserved h1 h2 -> preserved h2 h3 -> preserved h1 h3.
Proof. intros H12 H23 l o Hl. by apply H23, H12. Qed.

Lemma preserved_app h o : preserved h (h ++ [o]).
Proof. intros l o' Hl. rewrite lookup_app_l; [done|]. by apply lookup_lt_Some with o'. Qed.

Lemma preserved_length h0 h : preserved h0 h -> length h0 <= length h.
Proof.
  intros Hp. destruct (decide (length h0 = 0)) as [|Hne]; [lia|].
  destruct (lookup_lt_is_Some_2 h0 (length h0 - 1)) as [o Ho]; [lia|].
  apply Hp, lookup_lt_Some in Ho. lia.
Qed.

Lemma mutateDraft_updater_truthy p v h prev :
  truthy prev = true ->
  mutateDraft_updater p v h prev =
  (write_path (h ++ [spread h (Some prev)]) (length h) p v, VRef (length h)).
Proof.
  intros Ht. unfold mutateDraft_updater, write_path. rewrite Ht. cbn [negb].
  by destruct (descend _ _ _).
Qed.

Lemma mutateDraft_updater_falsy p v h prev :
  truthy prev = false -> mutateDraft_updater p v h prev = (h, prev).
Proof. intros Ht. unfold mutateDraft_updater. by rewrite Ht. Qed.

Lemma write_path_nil h c v : write_path h c [] v = set_prop h c "undefined" v.
Proof. reflexivity. Qed.

Lemma write_path_preserved_any h0 h c p v :
  preserved h0 h -> length h0 <= c -> c < length h -> preserved h0 (write_path h c p v).
Proof.
  intros Hp Hc0 Hc. destruct p as [|k p]; [|by apply write_path_preserved].
  rewrite write_path_nil. intros l o Hl. pose proof (lookup_lt_Some _ _ _ Hl).
  rewrite set_prop_lookup_ne by lia. by apply Hp.
Qed.

Lemma mutateDraft_updater_preserved p v h prev :
  preserved h (mutateDraft_updater p v h prev).1.
Proof.
  destruct (truthy prev) eqn:Ht.
  - rewrite mutateDraft_updater_truthy by done. cbn [fst].
    apply write_path_preserved_any; [apply preserved_app|lia|].
    rewrite length_app. simpl. lia.
  - rewrite mutateDraft_updater_falsy by done. apply preserved_refl.
Qed.

Lemma mutateDraft_cells p v w :
  objects (mutateDraft p v w) = (mutateDraft_updater p v (objects w) (settingsDraft w)).1
  /\ settingsDraft (mutateDraft p v w)
     = (mutateDraft_updater p v (objects w) (settingsDraft w)).2
  /\ settings (mutateDraft p v w) = settings w
  /\ settingsDirty (mutateDraft p v w) = true.
Proof. unfold mutateDraft. by destruct (mutateDraft_updater _ _ _ _). Qed.

Lemma mutateDraft_preserved p v w : preserved (objects w) (objects (mutateDraft p v w)).
Proof.
  destruct (mutateDraft_cells p v w) as [-> _]. apply mutateDraft_updater_preserved.
Qed.

(** Reads through a draft that is an object, after a write at [k :: p]. *)
Lemma mutateDraft_reads k p v w d o :
  settingsDraft w = VRef d -> objects w !! d = Some o ->
  let w' := mutateDraft (k :: p) v w in
  settingsDraft w' = VRef (length (objects w))
  /\ is_Some (objects w' !! length (objects w))
  /\ get_path (objects w') (settingsDraft w') (k :: p) = Some v
  /\ forall q y, diverges q (k :: p) = true ->
       get_path (objects w) (settingsDraft w) q = Some y ->
       get_path (objects w') (settingsDraft w') q = Some y.
Proof.
  intros Hd Ho. cbn zeta.
  destruct (mutateDraft_cells (k :: p) v w) as (-> & -> & _ & _).
  rewrite Hd, mutateDraft_updater_truthy by done. cbn [fst snd spread].
  assert (Hobj : obj_at (objects w) d = o) by (unfold obj_at; by rewrite Ho).
  rewrite Hobj. set (h := objects w).
  assert (Hc : (h ++ [o]) !! length h = Some o) by by apply list_lookup_middle.
  destruct (write_path_read p h (h ++ [o]) (length h) o k v (preserved_app h o)
              ltac:(lia) Hc) as [Hread Hframe].
  destruct (write_path_store p (h ++ [o]) (length h) k v) as [_ Hat].
  { rewrite length_app. simpl. lia. }
  split; [done|]. split; [by eexists|]. split; [done|].
  intros q y Hq Hy. apply Hframe; [done|].
  destruct q as [|s q]; [done|]. cbn [get_path get_in] in Hy |- *.
  fold h in Ho. by rewrite Ho in Hy.
Qed.

Lemma diverges_sym q : forall p, diverges q p = diverges p q.
Proof.
  induction q as [|s q IH]; intros [|t p]; try done. cbn [diverges].
  rewrite IH. destruct (String.eqb_spec s t) as [->|Hne].
  - by rewrite String.eqb_refl.
  - destruct (String.eqb_spec t s); [congruence|done].
Qed.

Lemma diverges_nonempty q p : diverges q p = true -> q ≠ [] /\ p ≠ [].
Proof. by destruct q, p. Qed.
End mutate_general.

(** X1. Write, then read.  For every draft that is set (truthy) and every
    non-empty path of field names other than ["__proto__"], whether or not
    the path existed before, [mutateDraft] makes the path read the new
    value: missing intermediate objects are created on the way. *)
Theorem mutateDraft_then_read (w : World) (p : list string) (v : value) :
  truthy (settingsDraft w) = true -> p ≠ [] -> plain_path p = true ->
  get_path (objects (mutateDraft p v w)) (settingsDraft (mutateDraft p v w)) p = Some v.
Proof.
  intros Ht Hne _. destruct p as [|k p]; [done|].
  destruct (mutateDraft_cells (k :: p) v w) as (-> & -> & _ & _).
  rewrite mutateDraft_updater_truthy by done. cbn [fst snd].
  set (h := objects w). set (o := spread h (Some (settingsDraft w))).
  assert (Hc : (h ++ [o]) !! length h = Some o) by by apply list_lookup_middle.
  by destruct (write_path_read p h (h ++ [o]) (length h) o k v (preserved_app h o)
                 ltac:(lia) Hc) as [Hread _].
Qed.

Lemma mutateDraft_then_read_witness :
  get_path (objects (mutateDraft ["remote"; "host"] (VStr "deck@nas") loaded))
    (settingsDraft (mutateDraft ["remote"; "host"] (VStr "deck@nas") loaded))
    ["remote"; "host"] = Some (VStr "deck@nas").
Proof.
  apply (mutateDraft_then_read loaded ["remote"; "host"] (VStr "deck@nas"));
    [vm_compute; reflexivity | discriminate | reflexivity].
Defined.

(** X2. [mutateDraft] writes only objects it has just created: for every
    path, value and draft, whatever could be read before through the
    persisted settings, through the previous draft or through any other value
    reads the same afterwards, and the persisted settings cell is not
    touched. *)
Theorem mutateDraft_keeps_old_reads (w : World) (p q : list string) (v x y : value) :
  get_path (objects w) x q = Some y ->
  get_path (objects (mutateDraft p v w)) x q = Some y
  /\ settings (mutateDraft p v w) = settings w.
Proof.
  intros Hq. split.
  - by apply get_path_preserved with (objects w); [apply mutateDraft_preserved|].
  - by destruct (mutateDraft_cells p v w) as (_ & _ & -> & _).
Qed.

Lemma mutateDraft_keeps_old_reads_witness :
  get_path (objects edited) (settings loaded) ["localLibraryPath"] = Some (VStr "/games")
  /\ settings edited = settings loaded.
Proof.
  apply (mutateDraft_keeps_old_reads loaded ["localLibraryPath"] ["localLibraryPath"]
           (VStr "/mnt/games") (settings loaded) (VStr "/games")).
  vm_compute. reflexivity.
Defined.

(** X3. Two edits at paths that part ways, of field names other than
    ["__proto__"], do not disturb each other: in either order, afterwards
    each path reads the value written to it. *)
Theorem edits_at_diverging_paths_commute (w : World) (p1 p2 : list string)
    (v1 v2 : value) (d : loc) (o : obj) :
  settingsDraft w = VRef d -> objects w !! d = Some o ->
  plain_path p1 = true -> plain_path p2 = true ->
  diverges p1 p2 = true ->
  let w12 := mutateDraft p2 v2 (mutateDraft p1 v1 w) in
  let w21 := mutateDraft p1 v1 (mutateDraft p2 v2 w) in
  get_path (objects w12) (settingsDraft w12) p1 = Some v1
  /\ get_path (objects w12) (settingsDraft w12) p2 = Some v2
  /\ get_path (objects w21) (settingsDraft w21) p1 = Some v1
  /\ get_path (objects w21) (settingsDraft w21) p2 = Some v2.
Proof.
  intros Hd Ho _ _ Hdiv. pose proof Hdiv as Hdiv'. rewrite diverges_sym in Hdiv'.
  destruct p1 as [|k1 p1]; [done|]. destruct p2 as [|k2 p2]; [done|].
  cbn zeta.
  destruct (mutateDraft_reads k1 p1 v1 w d o Hd Ho) as (Hd1 & [o1 Ho1] & Hr1 & _).
  destruct (mutateDraft_reads k2 p2 v2 w d o Hd Ho) as (Hd2 & [o2 Ho2] & Hr2 & _).
  destruct (mutateDraft_reads k2 p2 v2 _ _ o1 Hd1 Ho1) as (_ & _ & Hr12 & Hf12).
  destruct (mutateDraft_reads k1 p1 v1 _ _ o2 Hd2 Ho2) as (_ & _ & Hr21 & Hf21).
  split; [by apply Hf12|]. split; [done|]. split; [done|]. by apply Hf21.
Qed.

Lemma edits_at_diverging_paths_commute_witness :
  let w12 := mutateDraft ["proton"; "defaultVersion"] (VStr "9")
               (mutateDraft ["localLibraryPath"] (VStr "/mnt") loaded) in
  get_path (objects w12) (settingsDraft w12) ["localLibraryPath"] = Some (VStr "/mnt")
  /\ get_path (objects w12) (settingsDraft w12) ["proton"; "defaultVersion"]
     = Some (VStr "9").
Proof.
  destruct (edits_at_diverging_paths_commute loaded ["localLibraryPath"]
              ["proton"; "defaultVersion"] (VStr "/mnt") (VStr "9") 1
              (obj_at (objects loaded) 1)
              ltac:(vm_compute; reflexivity) ltac:(vm_compute; reflexivity)
              eq_refl eq_refl eq_refl)
    as (H1 & H2 & _).
  by split.
Defined.

(** X4. Writing to a leaf the value it already holds is not recognised as
    a no-op: every leaf reads what it read before, but the draft is a new
    object and the dirty flag is set. *)
Theorem rewriting_a_leaf_still_dirties (w : World) (p : list string) (leaf : value) :
  p ≠ [] ->
  get_path (objects w) (settingsDraft w) p = Some leaf -> is_leaf leaf = true ->
  let w' := mutateDraft p leaf w in
  (forall q x, is_leaf x = true ->
     get_path (objects w) (settingsDraft w) q = Some x ->
     get_path (objects w') (settingsDraft w') q = Some x)
  /\ settingsDraft w' ≠ settingsDraft w
  /\ settingsDirty w' = true.
Proof.
  intros Hne Hleaf Hisleaf. destruct p as [|k p]; [done|]. clear Hne.
  destruct (settingsDraft w) as [| | |d] eqn:Hd; try done.
  pose proof Hleaf as Hleaf'. cbn [get_path] in Hleaf'.
  destruct (objects w !! d) as [o|] eqn:Ho; [|done]. clear Hleaf'.
  destruct (mutateDraft_reads k p leaf w d o Hd Ho) as (Hd' & _ & Hread & Hframe).
  cbn zeta in *. rewrite Hd in Hframe. split; [|split].
  - intros q x Hx Hq. destruct (decide (q = k :: p)) as [->|Hqp].
    + rewrite Hread. congruence.
    + apply Hframe; [|done].
      by apply (leaves_diverge (objects w) q (k :: p) (VRef d) x leaf).
  - rewrite Hd'. apply lookup_lt_Some in Ho. intros [= Heq]. lia.
  - by destruct (mutateDraft_cells (k :: p) leaf w) as (_ & _ & _ & ->).
Qed.

Lemma rewriting_a_leaf_still_dirties_witness :
  settingsDraft (mutateDraft ["localLibraryPath"] (VStr "/games") loaded)
    ≠ settingsDraft loaded
  /\ settingsDirty (mutateDraft ["localLibraryPath"] (VStr "/games") loaded) = true.
Proof.
  refine (proj2 (rewriting_a_leaf_still_dirties loaded ["localLibraryPath"]
                   (VStr "/games") _ _ _));
    [discriminate | vm_compute; reflexivity | reflexivity].
Defined.

(** ** The object store along executions *)

(** Receiving a configuration only adds objects; a returned reference is
    one of the new objects. *)
Lemma alloc_json_grows : forall j h,
  preserved h (alloc_json h j).1
  /\ forall l, (alloc_json h j).2 = VRef l ->
       length h <= l /\ l < length (alloc_json h j).1.
Proof.
  fix IH 1. intros [| b | s | fields] h; try (split; [apply preserved_refl|done]).
  cbn [alloc_json].
  match goal with
  | |- context [let '(h', o) := ?f h ∅ fields in _] =>
      assert (Hfields : forall fs h0 acc, preserved h0 (f h0 acc fs).1)
  end.
  { induction fs as [|[k j'] fs IHfs]; intros h0 acc; [apply preserved_refl|].
    cbn. destruct (IH j' h0) as [Hp _].
    destruct (alloc_json h0 j') as [h1 v]. cbn [fst] in Hp.
    by apply preserved_trans with h1. }
  specialize (Hfields fields h ∅).
  match goal with
  | |- context [let '(h', o) := ?t in _] => destruct t as [h' o]
  end.
  cbn [fst snd] in *. split.
  - apply preserved_trans with h'; [done|apply preserved_app].
  - intros l [= <-]. apply preserved_length in Hfields.
    rewrite length_app. simpl. lia.
Qed.

Lemma loadSettings_resolved_cells j w :
  let r := alloc_json (objects w) j in
  objects (loadSettings_resolved j w) = r.1
  /\ settings (loadSettings_resolved j w) = r.2
  /\ settingsDraft (loadSettings_resolved j w) = r.2
  /\ settingsDirty (loadSettings_resolved j w) = false.
Proof. unfold loadSettings_resolved. by destruct (alloc_json _ _). Qed.

Lemma persistSettings_resolved_cells j w :
  let r := alloc_json (objects w) j in
  objects (persistSettings_resolved j w) = r.1
  /\ settings (persistSettings_resolved j w) = r.2
  /\ settingsDraft (persistSettings_resolved j w) = r.2
  /\ settingsDirty (persistSettings_resolved j w) = false
  /\ savingSettings (persistSettings_resolved j w) = false.
Proof. unfold persistSettings_resolved. by destruct (alloc_json _ _). Qed.

Lemma write_path_cursor_valid h c p v : c < length h -> c < length (write_path h c p v).
Proof.
  intros Hc. destruct p as [|k p].
  - rewrite write_path_nil. by rewrite set_prop_length.
  - destruct (write_path_store p h c k v Hc) as [_ Hat]. by apply lookup_lt_Some in Hat.
Qed.

(** ** Case analysis on a step *)

Ltac step_cases Hstep :=
  match type of Hstep with
  | step ?fe ?ev ?w = Some _ =>
      destruct ev as [| path v | | | o | i r | i]; cbn [step] in Hstep;
      [ | | | |
        destruct (has_operation fe o); [|discriminate Hstep]
      | destruct (pending w !! i) as [[| | | o | o out]|] eqn:Hi;
        destruct r as [j | payload | result | e]; try discriminate Hstep
      | destruct (pending w !! i) as [[| | | o | o out]|] eqn:Hi;
        try discriminate Hstep ];
      injection Hstep as <-
  end.

Ltac open_segments :=
  unfold settings_effect, handler_resumed, handler_finally, handler_try, handler_begin,
    callWithToaster, callWithToaster_settled, persistSettings_resolved,
    loadSettings_resolved, persistSettings_rejected, loadSettings_rejected,
    loadGames_resolved, loadGames_rejected, persistSettings, loadSettings, loadGames,
    mutateDraft, toast, markBusy, spawn, emit, end_task, set_task in *;
  repeat match goal with
         | |- context [alloc_json ?h ?j] => destruct (alloc_json h j) eqn:?
         | |- context [mutateDraft_updater ?p ?v ?h ?x] =>
             destruct (mutateDraft_updater p v h x) eqn:?
         | |- context [if decide ?P then _ else _] => destruct (decide P)
         | |- context [if ?c then _ else _] => destruct c eqn:?
         | |- context [match ?out with Resolved _ => _ | Rejected _ => _ end] =>
             destruct out
         | |- context [op_steps_title ?o] => destruct (op_steps_title o)
         | |- context [steps ?r] => destruct (steps r) as [[|? ?]|]
         end;
  cbn [objects settings settingsDraft settingsDirty savingSettings games gamesMeta
       gamesLoading globalError busyMap effects pending set_objects setSettings
       setSettingsDraft setSettingsDirty setSavingSettings setGames setGamesMeta
       setGamesLoading setGlobalError setBusyMap set_effects set_pending fst snd] in *.

(** ** Counting lemmas *)

Lemma count_tasks_app P ts ts' :
  count_tasks P (ts ++ ts') = count_tasks P ts + count_tasks P ts'.
Proof. unfold count_tasks. by rewrite filter_app, length_app. Qed.

Lemma count_tasks_singleton P t : count_tasks P [t] = if P t then 1 else 0.
Proof. unfold count_tasks. rewrite filter_cons. destruct (P t); by case_decide. Qed.

Lemma count_tasks_delete P ts i t :
  ts !! i = Some t ->
  count_tasks P ts = (if P t then 1 else 0) + count_tasks P (delete i ts).
Proof.
  intros Hi. unfold count_tasks.
  rewrite (Permutation_length (filter_Permutation (λ t, P t) _ _
             (delete_Permutation ts i t Hi))).
  rewrite filter_cons. destruct (P t); by case_decide.
Qed.

Lemma count_tasks_insert P ts i t t' :
  ts !! i = Some t -> P t' = P t ->
  count_tasks P (<[i := t']> ts) = count_tasks P ts.
Proof.
  intros Hi HP. rewrite insert_take_drop by by apply lookup_lt_Some in Hi.
  rewrite <- (take_drop_middle ts i t Hi) at 3.
  rewrite !count_tasks_app. f_equal. unfold count_tasks.
  rewrite !filter_cons, HP. by destruct (P t); repeat case_decide.
Qed.

(** X6. In every reachable state at most one save is in flight, and
    [savingSettings] is true exactly while one is. *)
Theorem one_save_at_a_time (fe : frontend) (w : World) :
  reachable fe w ->
  count_tasks is_saving (pending w) = (if savingSettings w then 1 else 0).
Proof.
  intros [evs Hrun]. revert Hrun.
  assert (Hinit : count_tasks is_saving (pending initial)
                  = (if savingSettings initial then 1 else 0)) by done.
  revert Hinit. generalize initial. revert w.
  induction evs as [|ev evs IH]; intros w w0 Hinv Hrun; cbn [run] in Hrun.
  { by injection Hrun as <-. }
  destruct (step fe ev w0) as [w1|] eqn:Hstep; [|done].
  apply (IH w w1); [|done]. clear IH Hrun w evs.
  step_cases Hstep; open_segments;
    rewrite ?count_tasks_app, ?count_tasks_singleton;
    try (rewrite (count_tasks_insert _ _ _ _ _ Hi) by done);
    try (rewrite (count_tasks_delete _ _ _ _ Hi) in Hinv);
    try (rewrite (count_tasks_delete _ _ _ _ Hi));
    cbn [is_saving] in *;
    try match goal with
        | H : _ || savingSettings _ = false |- _ => apply orb_false_elim in H as [_ H]
        end;
    destruct (savingSettings w0); try done; lia.
Qed.

Lemma one_save_at_a_time_witness :
  count_tasks is_saving (pending saving) = (if savingSettings saving then 1 else 0).
Proof.
  apply (one_save_at_a_time IndexTsx saving).
  exists [Mount; Settle 0 (Settings_returned sample_settings);
          Edit ["localLibraryPath"] (VStr "/mnt/games"); Commit].
  vm_compute. reflexivity.
Defined.

Lemma reachable_ind fe (P : World -> Prop) :
  P initial ->
  (forall ev w w', step fe ev w = Some w' -> P w -> P w') ->
  forall w, reachable fe w -> P w.
Proof.
  intros Hinit Hstep w [evs Hrun]. revert Hrun Hinit. generalize initial. revert w.
  induction evs as [|ev evs IH]; intros w w0 Hrun Hw0; cbn [run] in Hrun.
  - by injection Hrun as <-.
  - destruct (step fe ev w0) as [w1|] eqn:Hs; [|done].
    apply (IH w w1); [done|]. by apply (Hstep ev w0).
Qed.

(** X7. In every reachable state, while [gamesLoading] is true a
    [loadGames] is suspended on its call: the loading flag is never left
    standing. *)
Theorem loading_flag_has_a_pending_refresh (fe : frontend) (w : World) :
  reachable fe w -> gamesLoading w = true ->
  1 <= count_tasks is_loading_games (pending w).
Proof.
  intros Hr. pattern w. revert w Hr. apply reachable_ind; [done|].
  intros ev w0 w' Hstep Hinv.
  step_cases Hstep; open_segments; intros Hl;
    rewrite ?count_tasks_app, ?count_tasks_singleton;
    try (rewrite (count_tasks_insert _ _ _ _ _ Hi) by done);
    try (rewrite (count_tasks_delete _ _ _ _ Hi) in Hinv);
    try (rewrite (count_tasks_delete _ _ _ _ Hi));
    cbn [is_loading_games] in *; try done; try lia;
    specialize (Hinv Hl); lia.
Qed.

Lemma loading_flag_has_a_pending_refresh_witness :
  1 <= count_tasks is_loading_games (pending loaded).
Proof.
  apply (loading_flag_has_a_pending_refresh IndexTsx loaded);
    [|vm_compute; reflexivity].
  exists [Mount; Settle 0 (Settings_returned sample_settings)]. vm_compute. reflexivity.
Defined.

(** X5. In every reachable state, a draft that is not dirty is the
    persisted value itself (the same reference, not a copy). *)
Theorem clean_draft_is_the_persisted_value (fe : frontend) (w : World) :
  reachable fe w -> settingsDirty w = false -> settingsDraft w = settings w.
Proof.
  intros Hr. pattern w. revert w Hr. apply reachable_ind; [done|].
  intros ev w0 w' Hstep Hinv.
  step_cases Hstep; open_segments; intros Hd; try done; by apply Hinv.
Qed.

Lemma clean_draft_is_the_persisted_value_witness :
  settingsDraft loaded = settings loaded.
Proof.
  apply (clean_draft_is_the_persisted_value IndexTsx loaded);
    [|vm_compute; reflexivity].
  exists [Mount; Settle 0 (Settings_returned sample_settings)]. vm_compute. reflexivity.
Defined.

Lemma step_preserved fe ev w w' :
  step fe ev w = Some w' -> preserved (objects w) (objects w').
Proof.
  intros Hstep. destruct ev as [| path v | | | o | i r | i]; cbn [step] in Hstep.
  - injection Hstep as <-. apply preserved_refl.
  - injection Hstep as <-. apply mutateDraft_preserved.
  - injection Hstep as <-. open_segments; apply preserved_refl.
  - injection Hstep as <-. apply preserved_refl.
  - destruct (has_operation fe o); [|done]. injection Hstep as <-. apply preserved_refl.
  - destruct (pending w !! i) as [[| | | o | o out]|] eqn:Hi;
      destruct r as [j | payload | result | e]; try discriminate Hstep;
      injection Hstep as <-;
      try (open_segments; apply preserved_refl).
    + pose proof (alloc_json_grows j (objects w)) as [Hp _].
      open_segments; by rewrite Heqp in Hp.
    + pose proof (alloc_json_grows j (objects w)) as [Hp _].
      open_segments; by rewrite Heqp in Hp.
  - destruct (pending w !! i) as [[| | | o | o out]|] eqn:Hi; try discriminate Hstep.
    injection Hstep as <-. open_segments; apply preserved_refl.
Qed.

Lemma run_preserved fe evs : forall w w',
  run fe evs w = Some w' -> preserved (objects w) (objects w').
Proof.
  induction evs as [|ev evs IH]; intros w w' Hrun; cbn [run] in Hrun.
  - injection Hrun as <-. apply preserved_refl.
  - destruct (step fe ev w) as [w1|] eqn:Hs; [|done].
    apply preserved_trans with (objects w1); [by apply (step_preserved fe ev)|].
    by apply IH.
Qed.

(** X9. Objects are never modified once the segment that created them
    has ended: along any execution, whatever a path read from any value
    (the persisted settings, an earlier draft) still reads the same. *)
Theorem objects_are_immutable (fe : frontend) (evs : list event) (w w' : World)
    (x y : value) (q : list string) :
  run fe evs w = Some w' ->
  get_path (objects w) x q = Some y ->
  get_path (objects w') x q = Some y.
Proof.
  intros Hrun Hq. apply get_path_preserved with (objects w); [|done].
  by apply (run_preserved fe evs).
Qed.

Lemma objects_are_immutable_witness :
  get_path (objects edited) (settings loaded) ["proton"; "defaultVersion"]
  = Some (VStr "GE").
Proof.
  apply (objects_are_immutable IndexTsx [Edit ["localLibraryPath"] (VStr "/mnt/games")]
           loaded edited); vm_compute; reflexivity.
Defined.

Lemma roots_valid_reachable fe w : reachable fe w -> roots_valid w.
Proof.
  intros Hr. pattern w. revert w Hr. apply reachable_ind; [by split|].
  intros ev w0 w' Hstep [Hs Hd].
  pose proof (preserved_length _ _ (step_preserved fe ev w0 w' Hstep)) as Hlen.
  destruct ev as [| path v | | | o | i r | i].
  1,3,4: cbn [step] in Hstep; injection Hstep as <-; open_segments; by split.
  2: { cbn [step] in Hstep. destruct (has_operation fe o); [|done].
       injection Hstep as <-. by split. }
  3: { cbn [step] in Hstep.
       destruct (pending w0 !! i) as [[| | | o | o out]|] eqn:Hi; try discriminate Hstep.
       injection Hstep as <-. open_segments; by split. }
  - cbn [step] in Hstep. injection Hstep as <-.
    destruct (mutateDraft_cells path v w0) as (Ho & Hdr & Hset & _).
    split; intros l Hl.
    + rewrite Hset in Hl. specialize (Hs l Hl). lia.
    + rewrite Hdr in Hl. destruct (truthy (settingsDraft w0)) eqn:Ht.
      * rewrite Ho. rewrite mutateDraft_updater_truthy in Hl |- * by done.
        cbn [fst snd] in *. injection Hl as <-.
        apply write_path_cursor_valid. rewrite length_app. simpl. lia.
      * rewrite mutateDraft_updater_falsy in Hl by done. specialize (Hd l Hl). lia.
  - cbn [step] in Hstep.
    destruct (pending w0 !! i) as [[| | | o | o out]|] eqn:Hi;
      destruct r as [j | payload | result | e]; try discriminate Hstep;
      injection Hstep as <-;
      try (open_segments; by split).
    + pose proof (alloc_json_grows j (objects w0)) as [_ Hr].
      open_segments; rewrite Heqp in Hr; cbn [fst snd] in Hr;
        split; intros l' [= ->]; by apply Hr.
    + pose proof (alloc_json_grows j (objects w0)) as [_ Hr].
      open_segments; rewrite Heqp in Hr; cbn [fst snd] in Hr;
        split; intros l' [= ->]; by apply Hr.
Qed.

(** ** Overlapping refreshes *)

Lemma step_games_returned fe w i payload :
  pending w !! i = Some LoadingGames ->
  step fe (Settle i (Games_returned payload)) w
  = Some (loadGames_resolved payload (end_task i w)).
Proof. intros Hi. cbn [step]. by rewrite Hi. Qed.

(** X8. Two refreshes in flight at once: when the first answer arrives the
    loading flag drops although the other refresh is still pending, and the
    snapshot shown in the end is the one of the answer that arrived last,
    whichever request it belongs to. *)
Theorem last_refresh_answer_wins (fe : frontend) (w : World) (i j : nat)
    (p1 p2 : GamesResponse) :
  i < j ->
  pending w !! i = Some LoadingGames -> pending w !! j = Some LoadingGames ->
  (exists w1 w2,
      step fe (Settle i (Games_returned p1)) w = Some w1
      /\ gamesLoading w1 = false
      /\ pending w1 !! (j - 1) = Some LoadingGames
      /\ step fe (Settle (j - 1) (Games_returned p2)) w1 = Some w2
      /\ games w2 = resp_games p2
      /\ gamesMeta w2 = Some {| source := resp_source p2;
                               refreshedAt := resp_refreshedAt p2 |})
  /\ (exists w1 w2,
        step fe (Settle j (Games_returned p2)) w = Some w1
        /\ gamesLoading w1 = false
        /\ pending w1 !! i = Some LoadingGames
        /\ step fe (Settle i (Games_returned p1)) w1 = Some w2
        /\ games w2 = resp_games p1
        /\ gamesMeta w2 = Some {| source := resp_source p1;
                                 refreshedAt := resp_refreshedAt p1 |}).
Proof.
  intros Hij Hi Hj. split.
  - assert (Hj' : pending (loadGames_resolved p1 (end_task i w)) !! (j - 1)
                  = Some LoadingGames).
    { cbn. rewrite list_lookup_delete_ge by lia.
      by replace (S (j - 1)) with j by lia. }
    eexists _, _. split; [by apply step_games_returned|]. split; [done|].
    split; [done|]. split; [by apply step_games_returned|]. done.
  - assert (Hi' : pending (loadGames_resolved p2 (end_task j w)) !! i
                  = Some LoadingGames).
    { cbn. by rewrite list_lookup_delete_lt by lia. }
    eexists _, _. split; [by apply step_games_returned|]. split; [done|].
    split; [done|]. split; [by apply step_games_returned|]. done.
Qed.

Lemma last_refresh_answer_wins_witness :
  exists w1 w2,
    step IndexTsx (Settle 1 (Games_returned empty_library)) refreshing_twice = Some w1
    /\ gamesLoading w1 = false
    /\ pending w1 !! 0 = Some LoadingGames
    /\ step IndexTsx
         (Settle 0 (Games_returned
                      {| resp_games := [sample_game]; resp_source := "remote";
                         resp_savesPath := None; resp_refreshedAt := "earlier" |})) w1
       = Some w2
    /\ games w2 = [sample_game]
    /\ gamesMeta w2 = Some {| source := "remote"; refreshedAt := "earlier" |}.
Proof.
  exact (proj2 (last_refresh_answer_wins IndexTsx refreshing_twice 0 1
                  {| resp_games := [sample_game]; resp_source := "remote";
                     resp_savesPath := None; resp_refreshedAt := "earlier" |}
                  empty_library ltac:(lia) eq_refl eq_refl)).
Defined.

(** ** Loading and saving the settings *)

Lemma settings_effect_fresh before w l :
  settings w = VRef l -> before ≠ VRef l ->
  settings_effect before w = loadGames w.
Proof.
  intros Hs Hne. unfold settings_effect. rewrite Hs.
  by destruct (decide (VRef l = before)) as [<-|].
Qed.

Lemma refreshes_persistSettings_resolved j w :
  refreshes (persistSettings_resolved j w) = refreshes w.
Proof.
  unfold persistSettings_resolved. destruct (alloc_json _ _) as [h updated].
  transitivity
    (refreshes (emit (Notify {| title := "Deckyfin"; body := "Settings saved";
                                critical := false |}) w)); [reflexivity|].
  rewrite refreshes_emit. cbn [is_refresh]. lia.
Qed.

Lemma alloc_json_object fields h :
  exists l, (alloc_json h (JObj fields)).2 = VRef l /\ length h <= l.
Proof.
  pose proof (alloc_json_grows (JObj fields) h) as [_ Hfresh]. revert Hfresh.
  cbn [alloc_json].
  match goal with |- context [let '(h', o) := ?t in _] => destruct t as [h' o] end.
  cbn [fst snd]. intros Hfresh. exists (length h'). split; [done|].
  by apply Hfresh.
Qed.

Lemma fresh_root_differs w l :
  roots_valid w -> length (objects w) <= l -> settings w ≠ VRef l.
Proof. intros [Hs _] Hl Heq. specialize (Hs l Heq). lia. Qed.

(** X10. A successful save, whatever the draft has become in the
    meantime: persisted settings and draft both become the returned value
    (one and the same reference), the dirty flag and [savingSettings] are
    cleared and one non-critical notification is sent; in a reachable state,
    a returned object also starts exactly one refresh. *)
Theorem successful_save_replaces_both (fe : frontend) (w : World) (i : nat) (j : json) :
  reachable fe w -> pending w !! i = Some Saving ->
  exists w',
    step fe (Settle i (Settings_returned j)) w = Some w'
    /\ settings w' = (alloc_json (objects w) j).2
    /\ settingsDraft w' = settings w'
    /\ settingsDirty w' = false
    /\ savingSettings w' = false
    /\ notifications w' =
       notifications w ++
       [{| title := "Deckyfin"; body := "Settings saved"; critical := false |}]
    /\ (forall fields, j = JObj fields ->
          refreshes w' = S (refreshes w) /\ gamesLoading w' = true).
Proof.
  intros Hr Hi. apply roots_valid_reachable in Hr.
  eexists. split; [cbn [step]; by rewrite Hi|].
  destruct (persistSettings_resolved_cells j (end_task i w))
    as (Ho & Hs & Hd & Hdirty & Hsaving).
  cbn zeta in *. change (objects (end_task i w)) with (objects w) in *.
  pose proof (alloc_json_grows j (objects w)) as [_ Hfresh].
  assert (Hn : notifications (persistSettings_resolved j (end_task i w)) =
               notifications w ++
               [{| title := "Deckyfin"; body := "Settings saved"; critical := false |}]).
  { unfold persistSettings_resolved. destruct (alloc_json _ _).
    unfold notifications. cbn. by rewrite omap_app. }
  assert (Hcases : settings_effect (settings w) (persistSettings_resolved j (end_task i w))
                   = persistSettings_resolved j (end_task i w)
                   \/ settings_effect (settings w) (persistSettings_resolved j (end_task i w))
                      = loadGames (persistSettings_resolved j (end_task i w))).
  { unfold settings_effect. destruct (decide _); [by left|].
    destruct (truthy _); [by right | by left]. }
  set (w1 := persistSettings_resolved j (end_task i w)) in *.
  assert (Hsame : settings (settings_effect (settings w) w1) = settings w1
                  /\ settingsDraft (settings_effect (settings w) w1) = settingsDraft w1
                  /\ settingsDirty (settings_effect (settings w) w1) = settingsDirty w1
                  /\ savingSettings (settings_effect (settings w) w1) = savingSettings w1).
  { by destruct Hcases as [-> | ->]. }
  destruct Hsame as (Hs' & Hd' & Hdirty' & Hsaving').
  split; [congruence|]. split; [congruence|]. split; [congruence|].
  split; [congruence|]. split.
  { destruct Hcases as [-> | ->]; [done|]. by rewrite notifications_loadGames. }
  intros fields ->. destruct (alloc_json_object fields (objects w)) as (l & Hl & Hlen).
  rewrite (settings_effect_fresh _ _ l);
    [|congruence|exact (fresh_root_differs w l Hr Hlen)].
  split; [|done]. rewrite refreshes_loadGames. f_equal.
  unfold w1. by rewrite refreshes_persistSettings_resolved.
Qed.

Lemma successful_save_replaces_both_witness :
  exists w',
    step IndexTsx (Settle 1 (Settings_returned sample_settings)) saving = Some w'
    /\ settingsDraft w' = settings w'
    /\ settingsDirty w' = false
    /\ refreshes w' = S (refreshes saving).
Proof.
  destruct (successful_save_replaces_both IndexTsx saving 1 sample_settings)
    as (w' & Hstep & _ & Hd & Hdirty & _ & _ & Hobj).
  - exists [Mount; Settle 0 (Settings_returned sample_settings);
            Edit ["localLibraryPath"] (VStr "/mnt/games"); Commit].
    vm_compute. reflexivity.
  - vm_compute. reflexivity.
  - exists w'. split; [exact Hstep|]. split; [exact Hd|]. split; [exact Hdirty|].
    exact (proj1 (Hobj _ eq_refl)).
Defined.

Lemma refreshes_loadSettings_resolved j w :
  refreshes (loadSettings_resolved j w) = refreshes w.
Proof. unfold loadSettings_resolved. by destruct (alloc_json _ _). Qed.

(** X11. The settings load.  If it fails, the settings cells stay as they
    are, the error banner is set, and nothing is called or notified: no
    refresh follows.  If it succeeds, persisted settings and draft are the
    loaded value (one reference) and the draft is clean; in a reachable
    state a loaded object starts exactly one refresh, a loaded [null]
    none. *)
Theorem settings_load_outcomes (fe : frontend) (w : World) (i : nat) :
  reachable fe w -> pending w !! i = Some LoadingSettings ->
  (forall e, exists w',
      step fe (Settle i (Threw e)) w = Some w'
      /\ settings w' = settings w /\ settingsDraft w' = settingsDraft w
      /\ settingsDirty w' = settingsDirty w
      /\ globalError w' = Some "Unable to load plugin settings"
      /\ effects w' = effects w)
  /\ (forall j, exists w',
        step fe (Settle i (Settings_returned j)) w = Some w'
        /\ settings w' = (alloc_json (objects w) j).2
        /\ settingsDraft w' = settings w'
        /\ settingsDirty w' = false
        /\ (forall fields, j = JObj fields -> refreshes w' = S (refreshes w))
        /\ (j = JNull -> refreshes w' = refreshes w)).
Proof.
  intros Hr Hi. apply roots_valid_reachable in Hr. split.
  - intros e. eexists. cbn [step]. rewrite Hi. by repeat split.
  - intros j. eexists. split; [cbn [step]; by rewrite Hi|].
    destruct (loadSettings_resolved_cells j (end_task i w)) as (Ho & Hs & Hd & Hdirty).
    cbn zeta in *. change (objects (end_task i w)) with (objects w) in *.
    set (w1 := loadSettings_resolved j (end_task i w)) in *.
    assert (Hcases : settings_effect (settings w) w1 = w1
                     \/ settings_effect (settings w) w1 = loadGames w1).
    { unfold settings_effect. destruct (decide _); [by left|].
      destruct (truthy _); [by right | by left]. }
    assert (Hsame : settings (settings_effect (settings w) w1) = settings w1
                    /\ settingsDraft (settings_effect (settings w) w1) = settingsDraft w1
                    /\ settingsDirty (settings_effect (settings w) w1) = settingsDirty w1).
    { by destruct Hcases as [-> | ->]. }
    destruct Hsame as (Hs' & Hd' & Hdirty').
    split; [congruence|]. split; [congruence|]. split; [congruence|]. split.
    + intros fields ->.
      destruct (alloc_json_object fields (objects w)) as (l & Hl & Hlen).
      rewrite (settings_effect_fresh _ _ l);
        [|congruence|exact (fresh_root_differs w l Hr Hlen)].
      rewrite refreshes_loadGames. f_equal.
      unfold w1. by rewrite refreshes_loadSettings_resolved.
    + intros ->. cbn [alloc_json snd] in Hs.
      assert (Hnone : settings_effect (settings w) w1 = w1).
      { unfold settings_effect. rewrite Hs. by destruct (decide _). }
      rewrite Hnone. unfold w1. by rewrite refreshes_loadSettings_resolved.
Qed.

Lemma settings_load_outcomes_witness :
  exists w',
    step IndexTsx (Settle 0 (Threw (Some "backend down"))) mounted = Some w'
    /\ settings w' = VNull /\ settingsDraft w' = VNull /\ settingsDirty w' = false
    /\ globalError w' = Some "Unable to load plugin settings"
    /\ effects w' = [Call get_settings].
Proof.
  destruct (settings_load_outcomes IndexTsx mounted 0) as [Hfail _].
  - exists [Mount]. vm_compute. reflexivity.
  - vm_compute. reflexivity.
  - apply (Hfail (Some "backend down")).
Defined.

(** ** Busy keys *)

Lemma string_app_inj_r (p s1 s2 : string) : p +:+ s1 = p +:+ s2 -> s1 = s2.
Proof. induction p as [|c p IH]; [done|]. cbn [String.append]. intros [= H]. by apply IH. Qed.

(** X12. Two operations write the same busy key exactly when they are the
    same kind of operation on the same game (for setup: the same appid,
    whatever the game), or one is sync-all and the other the sync of a game
    named "all". *)
Theorem busy_keys_coincide_iff (o1 o2 : operation) :
  op_key o1 = op_key o2 <-> same_key o1 o2.
Proof.
  destruct o1, o2; cbn [op_key same_key String.append]; split; intros H;
    first [ discriminate H
          | exact H
          | exact I
          | by subst
          | by injection H
          | by apply string_app_inj_r, (inj pretty) in H ].
Qed.

Lemma is_busy_begin_same o w : is_busy (handler_begin o w) (op_key o) = true.
Proof. unfold is_busy, handler_begin. cbn. by rewrite lookup_insert_eq. Qed.

(** X13. The busy map is changed by key only: when a handler completes,
    the entry of every other key is what it was, and every other operation
    in flight stays in flight. *)
Theorem completion_leaves_other_keys (fe : frontend) (w : World) (i : nat)
    (o : operation) (out : outcome) (key : string) :
  pending w !! i = Some (Toasted o out) -> key ≠ op_key o ->
  exists w',
    step fe (Resume i) w = Some w'
    /\ busyMap w' !! key = busyMap w !! key
    /\ is_busy w' key = is_busy w key
    /\ (in_flight w key -> in_flight w' key).
Proof.
  intros Hi Hne. eexists. split; [by apply step_resume|].
  destruct (handler_try_busy o out (end_task i w)) as [Hb Hp].
  assert (Hk : busyMap (handler_resumed o out (end_task i w)) !! key = busyMap w !! key).
  { unfold handler_resumed, handler_finally.
    cbn [loadGames markBusy busyMap spawn emit set_pending set_effects setGlobalError
         setGamesLoading setBusyMap].
    rewrite lookup_insert_ne by done. by rewrite Hb. }
  split; [done|]. split; [unfold is_busy; by rewrite Hk|].
  intros Hfly. unfold handler_resumed, handler_finally.
  apply in_flight_spawn.
  destruct (in_flight_end_task w i _ key Hi) as (t & Hin & Hkey);
    [cbn; congruence|done|].
  exists t. split; [|done]. cbn. by rewrite Hp.
Qed.

Lemma completion_leaves_other_keys_witness :
  exists w',
    step IndexTsx (Resume 0) alpha_answered = Some w'
    /\ is_busy w' "sync-Beta" = is_busy alpha_answered "sync-Beta".
Proof.
  destruct (completion_leaves_other_keys IndexTsx alpha_answered 0 (Sync "Alpha")
              (Resolved sample_result) "sync-Beta")
    as (w' & Hstep & _ & Hb & _); [vm_compute; reflexivity | discriminate |].
  by exists w'.
Defined.

(** ** A whole dispatch *)

Lemma step_click fe o w :
  has_operation fe o = true -> step fe (Click o) w = Some (handler_begin o w).
Proof. intros H. cbn [step]. by rewrite H. Qed.

Lemma handler_try_cells o out w :
  effects (handler_try o out w) = effects w ++ map Notify (steps_toast o out)
  /\ pending (handler_try o out w) = pending w
  /\ busyMap (handler_try o out w) = busyMap w
  /\ games (handler_try o out w) = games w
  /\ gamesMeta (handler_try o out w) = gamesMeta w
  /\ settings (handler_try o out w) = settings w
  /\ settingsDraft (handler_try o out w) = settingsDraft w
  /\ settingsDirty (handler_try o out w) = settingsDirty w
  /\ savingSettings (handler_try o out w) = savingSettings w.
Proof.
  unfold handler_try, steps_toast. destruct out as [r|e]; [|by rewrite app_nil_r].
  destruct (op_steps_title o) as [tl|]; [|by rewrite app_nil_r].
  destruct (steps r) as [[|s l]|]; by rewrite ?app_nil_r.
Qed.

Lemma callWithToaster_settled_cells o out w :
  let w' := (callWithToaster_settled (op_success o) out w).1 in
  effects w' = effects w ++ [Notify (outcome_toast o out)]
  /\ pending w' = pending w /\ busyMap w' = busyMap w.
Proof. by destruct out. Qed.

(** X15. A dispatch from click to completion with nothing in between.  It
    makes the remote call, sends the notification of the outcome (critical
    only when the call threw: the [ok] flag of a result is not looked at),
    then the steps notification where there is one, then calls
    [load_games]; the key ends up [false]; the games, their metadata and the
    settings cells are not touched by the result. *)
Theorem dispatch_from_click_to_refresh (fe : frontend) (w : World) (o : operation)
    (out : outcome) :
  has_operation fe o = true ->
  exists w',
    run fe [Click o; Settle (length (pending w)) (response_of out);
            Resume (length (pending w))] w = Some w'
    /\ effects w' =
       effects w ++ [Call (op_call o); Notify (outcome_toast o out)]
       ++ map Notify (steps_toast o out) ++ [Call load_games]
    /\ busyMap w' = <[op_key o := false]> (busyMap w)
    /\ pending w' = pending w ++ [LoadingGames]
    /\ gamesLoading w' = true /\ globalError w' = None
    /\ games w' = games w /\ gamesMeta w' = gamesMeta w
    /\ settings w' = settings w /\ settingsDraft w' = settingsDraft w
    /\ settingsDirty w' = settingsDirty w.
Proof.
  intros Hop. set (n := length (pending w)).
  set (w1 := handler_begin o w).
  assert (H1 : pending w1 !! n = Some (Awaiting o)) by by apply list_lookup_middle.
  set (w2 := set_task n (Toasted o out) (callWithToaster_settled (op_success o) out w1).1).
  destruct (callWithToaster_settled_cells o out w1) as (He2 & Hp2 & Hb2). cbn zeta in *.
  assert (Hpend2 : pending w2 = pending w ++ [Toasted o out]).
  { unfold w2. cbn [set_task set_pending pending]. rewrite Hp2.
    change (pending w1) with (pending w ++ [Awaiting o]).
    rewrite insert_app_r_alt by done. by rewrite Nat.sub_diag. }
  assert (H2 : pending w2 !! n = Some (Toasted o out)).
  { rewrite Hpend2. by apply list_lookup_middle. }
  set (w3 := handler_resumed o out (end_task n w2)).
  exists w3. split.
  { cbn [run]. rewrite step_click by done. fold w1. rewrite (step_settle fe w1 n o out H1).
    fold w2. by rewrite (step_resume fe w2 n o out H2). }
  destruct (handler_try_cells o out (end_task n w2))
    as (He & Hp & Hb & Hg & Hm & Hs & Hd & Hdi & _).
  unfold w3, handler_resumed, handler_finally.
  cbn [loadGames markBusy spawn emit effects busyMap pending gamesLoading globalError games
       gamesMeta settings settingsDraft settingsDirty set_pending set_effects setGlobalError
       setGamesLoading setBusyMap].
  rewrite He, Hp, Hb, Hg, Hm, Hs, Hd, Hdi.
  cbn [end_task set_pending effects pending busyMap games gamesMeta settings settingsDraft
       settingsDirty].
  unfold w2 at 1 2. cbn [set_task set_pending effects busyMap]. rewrite He2, Hb2.
  rewrite Hpend2. unfold n. rewrite (delete_middle (pending w) [] (Toasted o out)).
  rewrite app_nil_r.
  change (effects w1) with (effects w ++ [Call (op_call o)]).
  change (busyMap w1) with (<[op_key o := true]> (busyMap w)).
  rewrite insert_insert_eq. rewrite <- !app_assoc.
  repeat split; unfold w2, w1; by destruct out.
Qed.

Lemma dispatch_from_click_to_refresh_witness :
  exists w',
    run Part000 [Click (Remove "Celeste"); Settle 0 (Threw None); Resume 0] initial
    = Some w'
    /\ effects w' =
       [Call (remove_game "Celeste");
        Notify {| title := "Deckyfin"; body := "Operation failed"; critical := true |};
        Call load_games].
Proof.
  destruct (dispatch_from_click_to_refresh Part000 initial (Remove "Celeste")
              (Rejected None) eq_refl) as (w' & Hrun & He & _).
  by exists w'.
Defined.

Lemma calls_of_notifications (ts : list Toast) : omap call_of (map Notify ts) = [].
Proof. induction ts as [|t ts IH]; [done|exact IH]. Qed.

(** X14. A second dispatch of an operation that is already in flight is
    not rejected: both calls are made, and when the first one completes the
    key is no longer busy although the second is still in flight. *)
Theorem duplicate_dispatch_is_not_rejected (fe : frontend) (w : World) (o : operation)
    (out : outcome) :
  has_operation fe o = true ->
  exists w',
    run fe [Click o; Click o; Settle (length (pending w)) (response_of out);
            Resume (length (pending w))] w = Some w'
    /\ calls w' = calls w ++ [op_call o; op_call o; load_games]
    /\ pending w' = pending w ++ [Awaiting o; LoadingGames]
    /\ in_flight w' (op_key o)
    /\ is_busy w' (op_key o) = false.
Proof.
  intros Hop. set (n := length (pending w)).
  set (w1 := handler_begin o (handler_begin o w)).
  assert (H1 : pending w1 !! n = Some (Awaiting o)).
  { change (pending w1) with ((pending w ++ [Awaiting o]) ++ [Awaiting o]).
    rewrite <- app_assoc. by apply list_lookup_middle. }
  set (w2 := set_task n (Toasted o out) (callWithToaster_settled (op_success o) out w1).1).
  destruct (callWithToaster_settled_cells o out w1) as (He2 & Hp2 & Hb2). cbn zeta in *.
  assert (Hpend2 : pending w2 = pending w ++ [Toasted o out; Awaiting o]).
  { unfold w2. cbn [set_task set_pending pending]. rewrite Hp2.
    change (pending w1) with ((pending w ++ [Awaiting o]) ++ [Awaiting o]).
    rewrite <- app_assoc. rewrite insert_app_r_alt by done. by rewrite Nat.sub_diag. }
  assert (H2 : pending w2 !! n = Some (Toasted o out)).
  { rewrite Hpend2. by apply list_lookup_middle. }
  set (w3 := handler_resumed o out (end_task n w2)).
  assert (Hp3 : pending w3 = pending w ++ [Awaiting o; LoadingGames]).
  { destruct (handler_try_cells o out (end_task n w2)) as (_ & Hp & _).
    unfold w3, handler_resumed, handler_finally.
    cbn [loadGames markBusy spawn emit pending set_pending set_effects setGlobalError
         setGamesLoading setBusyMap].
    rewrite Hp. cbn [end_task set_pending pending]. rewrite Hpend2. unfold n.
    rewrite (delete_middle (pending w) [Awaiting o] (Toasted o out)).
    by rewrite <- app_assoc. }
  exists w3. split.
  { cbn [run]. rewrite !step_click by done. fold w1.
    rewrite (step_settle fe w1 n o out H1). fold w2.
    by rewrite (step_resume fe w2 n o out H2). }
  split; [|split; [done|split]].
  - destruct (handler_try_cells o out (end_task n w2)) as (He & _).
    unfold calls, w3, handler_resumed, handler_finally.
    cbn [loadGames markBusy spawn emit effects set_pending set_effects setGlobalError
         setGamesLoading setBusyMap].
    rewrite He. cbn [end_task set_pending effects]. unfold w2 at 1.
    cbn [set_task set_pending effects]. rewrite He2.
    change (effects w1) with ((effects w ++ [Call (op_call o)]) ++ [Call (op_call o)]).
    rewrite !omap_app. cbn [omap call_of list_omap option_list].
    rewrite calls_of_notifications. cbn. rewrite <- !app_assoc. by rewrite ?app_nil_r.
  - exists (Awaiting o). split; [|done]. rewrite Hp3.
    apply elem_of_app. right. apply elem_of_cons. by left.
  - unfold is_busy, w3. by rewrite resumed_not_busy.
Qed.

Lemma duplicate_dispatch_is_not_rejected_witness :
  exists w',
    run Part000 [Click (Install "Celeste"); Click (Install "Celeste");
                 Settle 0 (Result_returned sample_result); Resume 0] initial = Some w'
    /\ calls w' = [install_game "Celeste"; install_game "Celeste"; load_games]
    /\ pending w' = [Awaiting (Install "Celeste"); LoadingGames]
    /\ in_flight w' "install-Celeste"
    /\ is_busy w' "install-Celeste" = false.
Proof.
  exact (duplicate_dispatch_is_not_rejected Part000 initial (Install "Celeste")
           (Resolved sample_result) eq_refl).
Defined.

(** ** Buttons and gates *)

Lemma calls_handler_begin o w : calls (handler_begin o w) = calls w ++ [op_call o].
Proof.
  unfold calls, handler_begin.
  cbn [callWithToaster spawn emit markBusy effects set_pending set_effects setBusyMap].
  by rewrite omap_app.
Qed.

Lemma card_busy_begin_same_game o w g :
  op_key o = "download-" +:+ name g \/ op_key o = "setup-" +:+ pretty (steam_appid g)
  \/ op_key o = "sync-" +:+ name g ->
  card_busy (handler_begin o w) g = true.
Proof.
  intros Hk. unfold card_busy.
  destruct Hk as [<- | [<- | <-]]; rewrite is_busy_begin_same;
    by rewrite ?orb_true_r.
Qed.

(** X16. Download, setup and sync (backup) lock the card they were started
    from: once such a handler has begun, the card is busy, and a press on
    any button of that card, in either front end, does nothing. *)
Theorem started_operation_locks_its_card (w : World) (g : GameEntry) (w1 : World) :
  w1 = handleDownload (name g) w \/ w1 = handleSetup (steam_appid g) (name g) w
  \/ w1 = handleSync (name g) w ->
  card_busy w1 g = true
  /\ press_download w1 g = w1 /\ press_setup w1 g = w1 /\ press_sync w1 g = w1
  /\ press_install w1 g = w1 /\ press_remove w1 g = w1 /\ press_backup w1 g = w1.
Proof.
  intros Hw1.
  assert (Hb : card_busy w1 g = true).
  { destruct Hw1 as [-> | [-> | ->]]; apply card_busy_begin_same_game;
      [left | right; left | right; right]; reflexivity. }
  split; [done|].
  unfold press_download, press_setup, press_sync, press_install, press_remove,
    press_backup, download_button, setup_button, sync_button, install_button,
    remove_button, backup_button.
  rewrite Hb. by destruct (remote_available g), (installed g).
Qed.

Lemma started_operation_locks_its_card_witness :
  card_busy (handleSync (name sample_game) initial) sample_game = true
  /\ press_download (handleSync (name sample_game) initial) sample_game
     = handleSync (name sample_game) initial.
Proof.
  destruct (started_operation_locks_its_card initial sample_game
              (handleSync (name sample_game) initial)) as (H1 & H2 & _);
    [right; right; reflexivity|].
  exact (conj H1 H2).
Defined.

(** X17. A game that is not available remotely cannot be downloaded or
    installed from its card: the Download button is not rendered and the
    Install button is disabled, so a press changes nothing and makes no
    call. *)
Theorem unavailable_game_is_never_fetched (w : World) (g : GameEntry) :
  remote_available g = false ->
  press_download w g = w /\ press_install w g = w
  /\ download_button w g = None
  /\ (installed g = false -> install_button w g = Some true).
Proof.
  intros Hr. unfold press_download, press_install, download_button, install_button.
  rewrite Hr. destruct (installed g); by rewrite ?orb_true_r.
Qed.

Lemma unavailable_game_is_never_fetched_witness :
  press_download initial local_only_game = initial
  /\ press_install initial local_only_game = initial.
Proof.
  destruct (unavailable_game_is_never_fetched initial local_only_game eq_refl)
    as (H1 & H2 & _).
  exact (conj H1 H2).
Defined.

(** X18. In the install/remove front end the card does not lock on
    install or remove: from an idle card, two presses in a row both go
    through and the call is made twice. *)
Theorem install_and_remove_can_be_pressed_twice (w : World) (g : GameEntry) :
  card_busy w g = false ->
  (installed g = false -> remote_available g = true ->
     calls (press_install (press_install w g) g)
     = calls w ++ [install_game (name g); install_game (name g)])
  /\ (installed g = true ->
        calls (press_remove (press_remove w g) g)
        = calls w ++ [remove_game (name g); remove_game (name g)]).
Proof.
  intros Hb.
  assert (Hi : card_busy (handleInstall (name g) w) g = false).
  { unfold handleInstall. rewrite card_busy_handler_begin; [done|..];
      cbn [op_key String.append]; discriminate. }
  assert (Hr : card_busy (handleRemove (name g) w) g = false).
  { unfold handleRemove. rewrite card_busy_handler_begin; [done|..];
      cbn [op_key String.append]; discriminate. }
  split.
  - intros Hinst Hav. unfold press_install at 2. unfold install_button.
    rewrite Hinst, Hb, Hav. cbn [press negb orb].
    unfold press_install, install_button. rewrite Hinst, Hi, Hav. cbn [press negb orb].
    unfold handleInstall. rewrite !calls_handler_begin. by rewrite <- app_assoc.
  - intros Hinst. unfold press_remove at 2. unfold remove_button.
    rewrite Hinst, Hb. cbn [press].
    unfold press_remove, remove_button. rewrite Hinst, Hr. cbn [press].
    unfold handleRemove. rewrite !calls_handler_begin. by rewrite <- app_assoc.
Qed.

Lemma install_and_remove_can_be_pressed_twice_witness :
  calls (press_install (press_install initial sample_game) sample_game)
  = [install_game "Celeste"; install_game "Celeste"].
Proof.
  destruct (install_and_remove_can_be_pressed_twice initial sample_game eq_refl)
    as [H _].
  exact (H eq_refl eq_refl).
Defined.

(** X19. The Sync-all button is disabled by the global gate only, not by
    its own busy key: while nothing is loading or saving, two presses in a
    row make the call twice. *)
Theorem sync_all_can_be_pressed_twice (w : World) :
  disableActions w = false ->
  is_busy (press_sync_all w) "sync-all" = true
  /\ calls (press_sync_all (press_sync_all w)) = calls w ++ [sync_all_saves; sync_all_saves].
Proof.
  intros Hd.
  assert (H1 : press_sync_all w = handleSyncAll w).
  { unfold press_sync_all, sync_all_button. by rewrite Hd. }
  assert (H2 : press_sync_all (handleSyncAll w) = handleSyncAll (handleSyncAll w)).
  { unfold press_sync_all, sync_all_button.
    change (disableActions (handleSyncAll w)) with (disableActions w). by rewrite Hd. }
  rewrite H1, H2. split; [apply (is_busy_begin_same SyncAll)|].
  unfold handleSyncAll. rewrite !calls_handler_begin. by rewrite <- app_assoc.
Qed.

Lemma sync_all_can_be_pressed_twice_witness :
  calls (press_sync_all (press_sync_all initial)) = [sync_all_saves; sync_all_saves].
Proof. exact (proj2 (sync_all_can_be_pressed_twice initial eq_refl)). Defined.

(** X20. The global gate.  While a refresh or a save is outstanding
    ([gamesLoading] or [savingSettings]), a press on any card button, on
    Refresh or on Sync all does nothing; starting a refresh closes the gate,
    and so does a save that actually starts. *)
Theorem global_gate_blocks_all_actions (w : World) (g : GameEntry) :
  disableActions w = true ->
  press_download w g = w /\ press_setup w g = w /\ press_sync w g = w
  /\ press_install w g = w /\ press_remove w g = w /\ press_backup w g = w
  /\ press_refresh w = w /\ press_sync_all w = w
  /\ (forall w0, disableActions (loadGames w0) = true)
  /\ (forall w0, truthy (settingsDraft w0) = true -> savingSettings w0 = false ->
                 disableActions (persistSettings w0) = true).
Proof.
  intros Hd.
  assert (Hb : card_busy w g = true).
  { unfold card_busy. rewrite Hd. by rewrite orb_true_r. }
  unfold press_download, press_setup, press_sync, press_install, press_remove,
    press_backup, press_refresh, press_sync_all, download_button, setup_button,
    sync_button, install_button, remove_button, backup_button, refresh_button,
    sync_all_button.
  rewrite Hb, Hd, orb_true_r.
  repeat split; try by destruct (remote_available g), (installed g).
  intros w0 Ht Hs. unfold persistSettings. rewrite Ht, Hs.
  unfold disableActions. cbn. by rewrite orb_true_r.
Qed.

Lemma global_gate_blocks_all_actions_witness :
  press_sync loaded sample_game = loaded /\ press_refresh loaded = loaded.
Proof.
  destruct (global_gate_blocks_all_actions loaded sample_game)
    as (_ & _ & H1 & _ & _ & _ & H2 & _); [vm_compute; reflexivity|].
  exact (conj H1 H2).
Defined.
